(** * Unified Media Converter: the DSP core of [unified_media_converter.py]

    A shallow embedding of the filter-response model, the band-chain
    evaluator, the FIR designer and the overlap-add convolution engine.

    Numbers.  The Python code computes in IEEE binary64.  The response model
    and the FIR designer use [cos], [sin] and powers, and are embedded over
    the real numbers [R]; the convolution engine only adds, multiplies,
    compares and truncates, and is embedded over the rationals [Q] so that
    its definitions evaluate.  Both are exact-arithmetic readings of the
    floating-point code: they agree with it up to rounding wherever binary64
    neither overflows nor divides by zero.  Where it does, Python raises
    [ZeroDivisionError] (a sample rate of 0, a Q that underflowed to 0.0) or
    [OverflowError] (a power out of range) and numpy yields NaN for 0/0,
    while the model returns a number.  The theorems about response values
    therefore bound the sample rate and the band parameters away from these
    cases. *)

From Stdlib Require Import Ascii String Bool Arith ZArith QArith Qround Qabs Reals Lra Lia List Sorted Permutation.
Import ListNotations.

(** ** Helpers shared by both parts *)

(** Elementwise combination of two equally long arrays ([a * b], [a + b] on
    one-dimensional numpy arrays of the same shape). *)
Fixpoint map2 {A B C : Type} (f : A -> B -> C) (l : list A) (l' : list B) : list C :=
  match l, l' with
  | a :: t, b :: t' => f a b :: map2 f t t'
  | _, _ => []
  end.

(** * Part I: response model, band chain, FIR design (over [R]) *)

Module Response.

Local Open Scope R_scope.

(** ** Complex numbers, as numpy's complex128 is used by the source *)

Record C : Type := mkC { Re : R; Im : R }.

Definition C1 : C := mkC 1 0.
Definition RtoC (x : R) : C := mkC x 0.
Definition Cadd (a b : C) : C := mkC (Re a + Re b) (Im a + Im b).
Definition Cmul (a b : C) : C :=
  mkC (Re a * Re b - Im a * Im b) (Re a * Im b + Im a * Re b).
Definition Cneg (a : C) : C := mkC (- Re a) (- Im a).
Definition Cconj (a : C) : C := mkC (Re a) (- Im a).
Definition Cscale (x : R) (a : C) : C := mkC (x * Re a) (x * Im a).
Definition Cdiv (a b : C) : C :=
  let d := Re b * Re b + Im b * Im b in
  mkC ((Re a * Re b + Im a * Im b) / d) ((Im a * Re b - Re a * Im b) / d).
Definition Cabs (a : C) : R := sqrt (Re a * Re a + Im a * Im a).

(** [np.exp(1j * t)] *)
Definition Cexp_i (t : R) : C := mkC (cos t) (sin t).

(** ** The [Band] dataclass *)

Record Band : Type := mkBand {
  type : string;        (* parametric | highpass | lowpass *)
  f : R;
  width_type : string;  (* q | oct *)
  width : R;
  g : R;
  muted : bool;
  solo : bool;
  invert : bool
}.

(** [Band.copy]: a new object with the same field values. *)
Definition copy (b : Band) : Band :=
  mkBand (type b) (f b) (width_type b) (width b) (g b) (muted b) (solo b) (invert b).

(** The assignment [band.invert = v] (as [_toggle_invert] does). *)
Definition with_invert (b : Band) (v : bool) : Band :=
  mkBand (type b) (f b) (width_type b) (width b) (g b) (muted b) (solo b) v.

(** ** [peaking_eq_response] *)

Definition peaking_f0 (band : Band) (fs : R) : R :=
  Rmax 1 (Rmin (f band) (fs / 2 - 1)).

(** The [Q] computed at the head of [peaking_eq_response]. *)
Definition peaking_Q (band : Band) (fs : R) : R :=
  let f0 := peaking_f0 band fs in
  if String.eqb (width_type band) "q" then
    Rmax (1 / 100) (width band)
  else
    let bw := Rmax (1 / 1000) (width band) in
    let f2 := f0 * Rpower 2 (bw / 2) in
    let f1 := f0 / Rpower 2 (bw / 2) in
    let denom := f2 - f1 in
    if Rlt_dec (1 / 10 ^ 12) denom then f0 / denom else 1.

(** [(b0 + b1*z1 + b2*z2) / (a0 + a1*z1 + a2*z2)] with
    [z1 = exp(-1j*ws)], [z2 = exp(-2j*ws)], at one frequency. *)
Definition biquad_eval (b0 b1 b2 a0 a1 a2 ws : R) : C :=
  let z1 := Cexp_i (- ws) in
  let z2 := Cexp_i (- (2 * ws)) in
  let num := Cadd (Cadd (RtoC b0) (Cscale b1 z1)) (Cscale b2 z2) in
  let den := Cadd (Cadd (RtoC a0) (Cscale a1 z1)) (Cscale a2 z2) in
  Cdiv num den.

Definition peaking_eq_response (band : Band) (freqs : list R) (fs : R) : list C :=
  let f0 := peaking_f0 band fs in
  let G := Rpower 10 (g band / 40) in
  let Q := peaking_Q band fs in
  let w0 := 2 * PI * f0 / fs in
  let cosw0 := cos w0 in
  let sinw0 := sin w0 in
  let alpha := sinw0 / (2 * Q) in
  let b0 := 1 + alpha * G in
  let b1 := - 2 * cosw0 in
  let b2 := 1 - alpha * G in
  let a0 := 1 + alpha / G in
  let a1 := - 2 * cosw0 in
  let a2 := 1 - alpha / G in
  map (fun fr =>
         let H := biquad_eval b0 b1 b2 a0 a1 a2 (2 * PI * fr / fs) in
         if invert band then Cneg H else H) freqs.

Definition lowpass_response (fc : R) (freqs : list R) (fs : R) : list C :=
  let Q := 1 / sqrt 2 in
  let w0 := 2 * PI * fc / fs in
  let cosw0 := cos w0 in
  let sinw0 := sin w0 in
  let alpha := sinw0 / (2 * Q) in
  let b0 := (1 - cosw0) / 2 in
  let b1 := 1 - cosw0 in
  let b2 := (1 - cosw0) / 2 in
  let a0 := 1 + alpha in
  let a1 := - 2 * cosw0 in
  let a2 := 1 - alpha in
  map (fun fr => biquad_eval b0 b1 b2 a0 a1 a2 (2 * PI * fr / fs)) freqs.

Definition highpass_response (fc : R) (freqs : list R) (fs : R) : list C :=
  let Q := 1 / sqrt 2 in
  let w0 := 2 * PI * fc / fs in
  let cosw0 := cos w0 in
  let sinw0 := sin w0 in
  let alpha := sinw0 / (2 * Q) in
  let b0 := (1 + cosw0) / 2 in
  let b1 := - (1 + cosw0) in
  let b2 := (1 + cosw0) / 2 in
  let a0 := 1 + alpha in
  let a1 := - 2 * cosw0 in
  let a2 := 1 - alpha in
  map (fun fr => biquad_eval b0 b1 b2 a0 a1 a2 (2 * PI * fr / fs)) freqs.

(** [np.ones_like(freqs, dtype=complex)] *)
Definition ones_like (freqs : list R) : list C := map (fun _ => C1) freqs.

(** The response of one band, as selected by the [if]/[elif] chain in the
    loop body of [compute_total_response]. *)
Definition band_response (b : Band) (freqs : list R) (fs : R) : list C :=
  if String.eqb (type b) "parametric" then peaking_eq_response b freqs fs
  else if String.eqb (type b) "lowpass" then lowpass_response (f b) freqs fs
  else if String.eqb (type b) "highpass" then highpass_response (f b) freqs fs
  else ones_like freqs.

Definition compute_total_response (bands : list Band) (freqs : list R) (fs : R) : list C :=
  fold_left (fun H_total b => map2 Cmul H_total (band_response b freqs fs))
            bands (ones_like freqs).

(** [20 * np.log10(np.maximum(np.abs(H), 1e-12))], the magnitude in dB as the
    visualiser and the CSV export compute it. *)
Definition magnitude_db (H : list C) : list R :=
  map (fun h => 20 * (ln (Rmax (Cabs h) (1 / 10 ^ 12)) / ln 10)) H.

(** ** [UnifiedApp._effective_bands] *)

Definition effective_bands (bands : list Band) : list Band :=
  if existsb solo bands then
    map copy (filter solo bands)
  else
    map copy (filter (fun b => negb (muted b)) bands).

(** ** [design_linear_phase_fir] *)

(** [np.linspace(start, stop, num)]: [num] points, [start + i * step] with
    [step = (stop - start) / (num - 1)]. *)
Definition linspace (start stop : R) (num : nat) : list R :=
  map (fun i => start + INR i * ((stop - start) / INR (num - 1))) (seq 0 num).

Definition Csum (l : list C) : C := fold_right Cadd (mkC 0 0) l.
Definition Rsum (l : list R) : R := fold_right Rplus 0 l.

(** [np.fft.ifft]: [x[n] = (1/M) * sum_k X[k] * exp(2j*pi*k*n/M)]. *)
Definition ifft (X : list C) : list C :=
  let M := length X in
  map (fun n =>
         Cscale (1 / INR M)
           (Csum (map (fun kX => Cmul (snd kX)
                                   (Cexp_i (2 * PI * INR (fst kX) * INR n / INR M)))
                      (combine (seq 0 M) X))))
      (seq 0 M).

(** [np.hanning(M)]: empty for [M < 1], [[1.0]] for [M = 1], otherwise
    [0.5 - 0.5*cos(2*pi*n/(M-1))] for [n = 0 .. M-1]. *)
Definition hanning (M : nat) : list R :=
  match M with
  | O => []
  | S O => [1]
  | _ => map (fun n => 1 / 2 - 1 / 2 * cos (2 * PI * INR n / INR (M - 1))) (seq 0 M)
  end.

(** The slice [H_pos[-2:0:-1]]: the elements at indices [len-2] down to [1]. *)
Definition slice_m2_0_rev {A : Type} (l : list A) : list A :=
  rev (skipn 1 (firstn (length l - 1) l)).

(** The tap count after [if n_taps % 2 != 0: n_taps += 1]. *)
Definition even_taps (n_taps : nat) : nat :=
  if negb (n_taps mod 2 =? 0)%nat then (n_taps + 1)%nat else n_taps.

(** The array [h] after [h = np.real(np.fft.ifft(full))]. *)
Definition fir_impulse (bands : list Band) (fs : R) (n_taps : nat) : list R :=
  let n_taps := even_taps n_taps in
  let n_freq := n_taps in
  let freqs := linspace 0 (fs / 2) (n_freq / 2 + 1) in
  let H_pos := compute_total_response bands freqs fs in
  let full := H_pos ++ map Cconj (slice_m2_0_rev H_pos) in
  let h := ifft full in
  map Re h.

(** The array [h] after [h = h * win], just before the normalisation step. *)
Definition fir_windowed (bands : list Band) (fs : R) (n_taps : nat) : list R :=
  let h := fir_impulse bands fs n_taps in
  let win := hanning (length h) in
  map2 Rmult h win.

Definition design_linear_phase_fir (bands : list Band) (fs : R) (n_taps : nat) : list R :=
  let h := fir_windowed bands fs n_taps in
  let s := Rsum h in
  let h := if Rlt_dec (1 / 10 ^ 12) (Rabs s) then map (fun x => x / s) h else h in
  firstn (even_taps n_taps) h.

End Response.

(** * Part II: the overlap-add convolution engine (over [Q]) *)

Module Engine.

Local Open Scope Q_scope.

(** ** Arrays *)

(** A two-dimensional float array of shape [(rows, nch)]: a list of rows. *)
Definition array2 : Type := list (list Q).

(** [np.zeros((rows, nch))] *)
Definition zeros2 (rows nch : nat) : array2 := repeat (repeat 0 nch) rows.

(** [a[:, ch]] *)
Definition column (ch : nat) (a : array2) : list Q := map (fun row => nth ch row 0) a.

(** The array of [rows] rows whose column [ch] is the [ch]-th list of [cols]:
    [Y = np.zeros((rows, nch))] followed by [Y[:, ch] = y] for every [ch]. *)
Definition of_columns (rows : nat) (cols : list (list Q)) : array2 :=
  map (fun k => map (fun y => nth k y 0) cols) (seq 0 rows).

(** [a + b] on two-dimensional arrays with the same number of columns, with
    numpy's broadcasting on the row axis: the row counts must be equal, or one
    of them must be 1; otherwise numpy raises [ValueError]. *)
Definition np_add (a b : array2) : option array2 :=
  if (length a =? length b)%nat then Some (map2 (map2 Qplus) a b)
  else if (length b =? 1)%nat then Some (map (fun r => map2 Qplus r (hd [] b)) a)
  else if (length a =? 1)%nat then Some (map (fun r => map2 Qplus (hd [] a) r) b)
  else None.

(** ** Transforms

    A spectrum of size [N] is represented by the length-[N] real sequence it
    is the discrete Fourier transform of.  [rfft(x, n=N)] crops or zero-pads
    [x] to [N] samples; the elementwise product of two spectra is the
    spectrum of the circular convolution of the two sequences; [irfft]
    returns the sequence. *)

Record spectrum : Type := mkSpectrum { sequence : list Q }.

Definition Qsum (l : list Q) : Q := fold_right Qplus 0 l.

Definition rfft (x : list Q) (N : nat) : spectrum :=
  mkSpectrum (firstn N x ++ repeat 0 (N - length x)).

Definition spectrum_mul (N : nat) (X H : spectrum) : spectrum :=
  mkSpectrum
    (map (fun k =>
            Qsum (map (fun i => nth i (sequence X) 0
                                * nth ((k + N - i) mod N) (sequence H) 0)
                      (seq 0 N)))
         (seq 0 N)).

Definition irfft (X : spectrum) (N : nat) : list Q :=
  firstn N (sequence X) ++ repeat 0 (N - length (sequence X)).

(** ** Clamping and conversion to 16-bit integers *)

Definition qmax (a b : Q) : Q := if Qle_bool a b then b else a.
Definition qmin (a b : Q) : Q := if Qle_bool a b then a else b.

(** [np.clip(x, lo, hi)] is [minimum(maximum(x, lo), hi)]. *)
Definition np_clip (x lo hi : Q) : Q := qmin (qmax x lo) hi.

(** [.astype(np.int16)] on a float within the 16-bit range: the fractional
    part is discarded (rounding toward zero). *)
Definition astype_int16 (x : Q) : Z := Z.quot (Qnum x) (Zpos (Qden x)).

(** [np.clip(v, -32767, 32767).astype(np.int16)] on one sample. *)
Definition clamp_sample (v : Q) : Z := astype_int16 (np_clip v (-32767 # 1) (32767 # 1)).

Definition clamp_block (a : array2) : list (list Z) := map (map clamp_sample) a.

(** ** [next_pow2] *)

(** Python's [int.bit_length]. *)
Definition bit_length (z : Z) : Z :=
  if (z =? 0)%Z then 0%Z else (Z.log2 (Z.abs z) + 1)%Z.

Definition next_pow2 (x : Z) : Z := Z.shiftl 1 (bit_length (x - 1)).

(** ** Files, events and the session's effects *)

(** A WAV file open for reading: the header fields and the frames, each frame
    holding one 16-bit sample per channel.  [getnframes] is the number of
    frames. *)
Record wave_read : Type := mkWaveRead {
  getnchannels : nat;
  getframerate : Z;
  getsampwidth : Z;
  frames_of : list (list Z)
}.

Definition getnframes (wf : wave_read) : nat := length (frames_of wf).

(** A WAV file being written. *)
Record wave_write : Type := mkWaveWrite {
  w_nchannels : nat;
  w_sampwidth : Z;
  w_framerate : Z;
  w_frames : list (list Z)
}.

(** [('progress', (task_id, pct))] *)
Inductive event : Type := progress (task_id : string) (pct : Q).

Definition pct_of (e : event) : Q := match e with progress _ p => p end.

(** What one call has done to the outside world: the output file ([None]
    while it has not been created), the number of input frames read, and the
    events put on the queue, oldest first. *)
Record session : Type := mkSession {
  out_wav : option wave_write;
  frames_read : nat;
  ui_queue : list event
}.

Definition fresh : session := mkSession None 0 [].

Inductive error : Type :=
| RuntimeError_sample_width   (* 'Only 16-bit PCM supported for internal convolution' *)
| ValueError_negative_dimensions     (* np.zeros((-1, nch)) *)
| ValueError_broadcast (rows_a rows_b : nat)  (* operands could not be broadcast together *)
| out_of_fuel.

Inductive result (A : Type) : Type :=
| Ok (a : A)
| Raise (e : error).
Arguments Ok {A} a.
Arguments Raise {A} e.

Definition open_out (nch : nat) (sr : Z) (st : session) : session :=
  mkSession (Some (mkWaveWrite nch 2 sr [])) (frames_read st) (ui_queue st).

Definition writeframes (fr : list (list Z)) (st : session) : session :=
  match out_wav st with
  | Some w =>
      mkSession (Some (mkWaveWrite (w_nchannels w) (w_sampwidth w) (w_framerate w)
                                   (w_frames w ++ fr)))
                (frames_read st) (ui_queue st)
  | None => st
  end.

Definition note_read (n : nat) (st : session) : session :=
  mkSession (out_wav st) (frames_read st + n) (ui_queue st).

Definition put (e : event) (st : session) : session :=
  mkSession (out_wav st) (frames_read st) (ui_queue st ++ [e]).

(** The frames written so far (none while the file does not exist). *)
Definition written (st : session) : list (list Z) :=
  match out_wav st with Some w => w_frames w | None => [] end.

(** Truthiness of [ui_queue and task_id]: a queue was passed, and the task id
    is neither [None] nor the empty string. *)
Definition reports (have_queue : bool) (task_id : option string) : option string :=
  match have_queue, task_id with
  | true, Some (String c s) => Some (String c s)
  | _, _ => None
  end.

(** ** [overlap_add_convolve_wav] *)

Section Convolve.

Variable nch : nat.
Variable fir : list Q.
Variable block_size : nat.
Variable N : nat.
Variable H : spectrum.
Variable total_frames : nat.
Variable reporting : option string.

Let Lh : nat := length fir.

(** One pass through the body of [while True], after a non-empty read. *)
Definition filter_block (data : array2) : array2 :=
  of_columns N (map (fun ch =>
                       let x := column ch data in
                       let X := rfft x N in
                       irfft (spectrum_mul N X H) N)
                    (seq 0 nch)).

(** [overlap_new], padded with zero rows when shorter than [Lh - 1]. *)
Definition next_overlap (Y : array2) (m : nat) : array2 :=
  let overlap_new := firstn (Lh - 1) (skipn m Y) in
  if (length overlap_new <? Lh - 1)%nat then
    overlap_new ++ zeros2 ((Lh - 1) - length overlap_new) nch
  else overlap_new.

Definition progress_pct (processed : nat) : Q :=
  qmin 100 ((inject_Z (Z.of_nat processed) / inject_Z (Z.of_nat total_frames)) * 100).

(** The [while True] loop.  [remaining] is the unread part of the input;
    the loop returns the final [overlap]. *)
Fixpoint block_loop (fuel : nat) (remaining : list (list Z)) (overlap : array2)
         (processed : nat) (st : session) : session * result array2 :=
  match fuel with
  | O => (st, Raise out_of_fuel)
  | S fuel' =>
      let frames := firstn block_size remaining in
      match frames with
      | [] => (st, Ok overlap)
      | _ :: _ =>
          let st := note_read (length frames) st in
          let data := map (map inject_Z) frames in
          let m := length data in
          let Y := filter_block data in
          match np_add (firstn m Y) (firstn m overlap) with
          | None =>
              (st, Raise (ValueError_broadcast (length (firstn m Y))
                                               (length (firstn m overlap))))
          | Some out_block =>
              let st := writeframes (clamp_block out_block) st in
              let overlap := next_overlap Y m in
              let processed := (processed + m)%nat in
              let st := match reporting with
                        | Some task_id => put (progress task_id (progress_pct processed)) st
                        | None => st
                        end in
              block_loop fuel' (skipn block_size remaining) overlap processed st
          end
      end
  end.

(** What the two [np.clip] calls receive: the value of [out_block], pass
    after pass, and then [tail], when the loop ends normally and [tail] has
    at least one row. *)
Fixpoint clip_inputs (fuel : nat) (remaining : list (list Z)) (overlap : array2)
  : list array2 :=
  match fuel with
  | O => []
  | S fuel' =>
      let frames := firstn block_size remaining in
      match frames with
      | [] => if (0 <? length overlap)%nat then [overlap] else []
      | _ :: _ =>
          let data := map (map inject_Z) frames in
          let m := length data in
          let Y := filter_block data in
          match np_add (firstn m Y) (firstn m overlap) with
          | None => []
          | Some out_block =>
              out_block :: clip_inputs fuel' (skipn block_size remaining)
                                       (next_overlap Y m)
          end
      end
  end.

End Convolve.

Definition overlap_add_convolve_wav (wf_in : wave_read) (fir : list Q)
           (block_size : nat) (have_queue : bool) (task_id : option string)
  : session * result unit :=
  let nch := getnchannels wf_in in
  let sr := getframerate wf_in in
  let sw := getsampwidth wf_in in
  let nframes := getnframes wf_in in
  if negb (sw =? 2)%Z then (fresh, Raise RuntimeError_sample_width)
  else
    let st := open_out nch sr fresh in
    let Lh := length fir in
    let N := Z.to_nat (next_pow2 (Z.of_nat block_size + Z.of_nat Lh - 1)) in
    let H := rfft fir N in
    match Lh with
    | O => (st, Raise ValueError_negative_dimensions)
    | S _ =>
        let overlap := zeros2 (Lh - 1) nch in
        let total_frames := nframes in
        let reporting := reports have_queue task_id in
        match block_loop nch fir block_size N H total_frames reporting
                         (S nframes) (frames_of wf_in) overlap 0 st with
        | (st, Raise e) => (st, Raise e)
        | (st, Ok tail) =>
            let st := if (0 <? length tail)%nat
                      then writeframes (clamp_block tail) st else st in
            let st := match reporting with
                      | Some task_id => put (progress task_id 100) st
                      | None => st
                      end in
            (st, Ok tt)
        end
    end.

(** The rows that reach [np.clip] during one call, in the order in which
    their clipped values are written. *)
Definition unclipped_output (wf_in : wave_read) (fir : list Q) (block_size : nat)
  : array2 :=
  let nch := getnchannels wf_in in
  let sw := getsampwidth wf_in in
  let nframes := getnframes wf_in in
  if negb (sw =? 2)%Z then []
  else
    let Lh := length fir in
    let N := Z.to_nat (next_pow2 (Z.of_nat block_size + Z.of_nat Lh - 1)) in
    let H := rfft fir N in
    match Lh with
    | O => []
    | S _ =>
        concat (clip_inputs nch fir block_size N H (S nframes) (frames_of wf_in)
                            (zeros2 (Lh - 1) nch))
    end.

(** ** The reference the engine is compared with

    Following the specification's words: direct (non-blocked) convolution of
    the whole signal with the filter, per channel, followed by the same
    16-bit clamping; and agreement sample for sample within one
    least-significant bit. *)

Definition direct_convolution (x h : list Q) : list Q :=
  map (fun n =>
         Qsum (map (fun i => if (i <=? n)%nat then nth i x 0 * nth (n - i) h 0 else 0)
                   (seq 0 (length x))))
      (seq 0 (length x + length h - 1)).

Definition direct_output (wf : wave_read) (fir : list Q) : list (list Z) :=
  let data := map (map inject_Z) (frames_of wf) in
  clamp_block
    (of_columns (getnframes wf + length fir - 1)
                (map (fun ch => direct_convolution (column ch data) fir)
                     (seq 0 (getnchannels wf)))).

(** The progress values of a completed run, in the order reported: after the
    [k]-th block, [min(100, processed / total * 100)] with
    [processed = min(k * block_size, total)]; then the final [100.0]. *)
Definition block_count (block_size total : nat) : nat :=
  (total + block_size - 1) / block_size.

Definition expected_progress (block_size total : nat) : list Q :=
  map (fun k => progress_pct total (Nat.min (k * block_size) total))
      (seq 1 (block_count block_size total))
  ++ [100].

Fixpoint all2 {A : Type} (p : A -> A -> bool) (l l' : list A) : bool :=
  match l, l' with
  | [], [] => true
  | a :: t, b :: t' => p a b && all2 p t t'
  | _, _ => false
  end.

Definition within_one_lsb (out ref : list (list Z)) : bool :=
  all2 (all2 (fun a b => (Z.abs (a - b) <=? 1)%Z)) out ref.

End Engine.

(** * Part II-b: the worker's progress loop, the drop parser, the band editor *)

Module Worker.

Local Open Scope Q_scope.

(** What the worker puts on the queue: [('cmd', text)], [('log', line)],
    [('progress', (task_id, pct))] and [('error', text)]. *)
Inductive ui_event : Type :=
| ev_cmd (text : string)
| ev_log (line : string)
| ev_progress (task_id : string) (pct : Q)
| ev_error (text : string).

(** How the child process went.  The whole of [Popen], the read loop and
    [proc.wait()] stands in one [try]: [Popen] raised; or reading
    [proc.stdout] raised after some lines had been delivered (the pipe is
    opened in text mode, so a line that cannot be decoded raises there); or
    every line was delivered and [proc.wait()] gave an exit code. *)
Inductive process : Type :=
| popen_raised (message : string)
| read_raised (stdout : list string) (message : string)
| ran (stdout : list string) (rc : Z).

Section RunCmd.

(** Text helpers of the standard library, taken as given: [str.strip],
    ["' '.join(shlex.quote(c) for c in cmd)"], the two error texts, and the
    time of a stripped line, that is [parse_ffmpeg_time(line)] when the line
    contains ['time='] and [None] otherwise. *)
Variable strip : string -> string.
Variable quote_join : list string -> string.
Variable returned_text : Z -> string.
Variable error_text : string -> string.
Variable line_time : string -> option Q.

Variable task_id : string.
Variable duration : Q.

(** The body of [for line in proc.stdout], on the pair of [last_pct] and the
    events put so far. *)
Definition on_line (st : Q * list ui_event) (line : string) : Q * list ui_event :=
  let (last_pct, events) := st in
  let line := strip line in
  let events := events ++ [ev_log line] in
  match line_time line with
  | Some t =>
      if Qlt_le_dec 0 duration then
        let pct := Engine.qmin 100 ((t / duration) * 100) in
        if Qle_bool (1 # 2) (pct - last_pct) || Qeq_bool pct 100 then
          (pct, events ++ [ev_progress task_id pct])
        else (last_pct, events)
      else (last_pct, events)
  | None => (last_pct, events)
  end.

Definition _run_cmd_with_progress (cmd : list string) (proc : process) : list ui_event :=
  let events := [ev_cmd (quote_join cmd)] in
  match proc with
  | popen_raised e => events ++ [ev_error (error_text e)]
  | read_raised stdout e =>
      let (last_pct, events) := fold_left on_line stdout (0, events) in
      events ++ [ev_error (error_text e)]
  | ran stdout rc =>
      let (last_pct, events) := fold_left on_line stdout (0, events) in
      if negb (rc =? 0)%Z then events ++ [ev_error (returned_text rc)]
      else events ++ [ev_progress task_id 100]
  end.

End RunCmd.

(** The progress values among some events, in order. *)
Fixpoint progress_values (events : list ui_event) : list Q :=
  match events with
  | [] => []
  | ev_progress _ pct :: rest => pct :: progress_values rest
  | _ :: rest => progress_values rest
  end.

(** The logged lines among some events, in order. *)
Fixpoint logged_lines (events : list ui_event) : list string :=
  match events with
  | [] => []
  | ev_log line :: rest => line :: logged_lines rest
  | _ :: rest => logged_lines rest
  end.

(** What holds of [last_pct] and of the events put so far, after any number
    of lines. *)
Definition loop_invariant (st : Q * list ui_event) : Prop :=
  0 <= fst st /\ fst st <= 100
  /\ StronglySorted Qle (progress_values (snd st))
  /\ Forall (fun v => 1 # 2 <= v /\ v <= fst st) (progress_values (snd st)).

End Worker.

(** ** [UnifiedApp._on_drop]: the paths in the data of a drop event

    Strings are sequences of characters with codes below 256. *)

Module Drop.

Local Open Scope string_scope.

Definition is_open (ch : ascii) : bool := Ascii.eqb ch "{"%char.
Definition is_close (ch : ascii) : bool := Ascii.eqb ch "}"%char.
Definition is_blank (ch : ascii) : bool := Ascii.eqb ch " "%char.

(** The [for ch in data] loop, on [parts], [cur] and [in_brace]. *)
Fixpoint drop_loop (data : string) (parts : list string) (cur : string)
         (in_brace : bool) : list string :=
  match data with
  | EmptyString => parts
  | String ch rest =>
      if is_open ch then drop_loop rest parts "" true
      else if is_close ch then drop_loop rest (parts ++ [cur])%list "" false
      else if in_brace then drop_loop rest parts (cur ++ String ch "") in_brace
      else if is_blank ch && negb in_brace then drop_loop rest parts cur in_brace
      else drop_loop rest parts cur in_brace
  end.

(** [str.isspace] on one character below 256: tab to carriage return, the
    four separators 28 to 31, space, next-line (133), no-break space (160). *)
Definition isspace (ch : ascii) : bool :=
  let n := nat_of_ascii ch in
  (Nat.leb 9 n && Nat.leb n 13) || (Nat.leb 28 n && Nat.leb n 32)
  || Nat.eqb n 133 || Nat.eqb n 160.

(** [data.split()]: the maximal runs of non-space characters. *)
Fixpoint split_from (data : string) (cur : string) : list string :=
  match data with
  | EmptyString => match cur with EmptyString => [] | _ => [cur] end
  | String ch rest =>
      if isspace ch then
        match cur with
        | EmptyString => split_from rest ""
        | _ => cur :: split_from rest ""
        end
      else split_from rest (cur ++ String ch "")
  end.

Definition split (data : string) : list string := split_from data "".

(** The list [parts] that [_on_drop] goes on to queue. *)
Definition dropped_parts (data : string) : list string :=
  let parts := drop_loop data [] "" false in
  match parts, data with
  | [], String _ _ => split data
  | _, _ => parts
  end.

(** A string without braces. *)
Fixpoint brace_free (s : string) : bool :=
  match s with
  | EmptyString => true
  | String ch rest => negb (is_open ch) && negb (is_close ch) && brace_free rest
  end.

(** Drop data as Tk writes it: items in braces, each preceded by some text
    outside braces, and some text after the last one. *)
Fixpoint braced (items : list (string * string)) (trail : string) : string :=
  match items with
  | [] => trail
  | (gap, name) :: rest => gap ++ "{" ++ name ++ "}" ++ braced rest trail
  end.

End Drop.

(** ** The band editor and [build_ffmpeg_filter] *)

Module Editor.

Import Response.

(** [Band()], all fields at their defaults. *)
Definition default_band : Band :=
  mkBand "parametric" 1000%R "q" 1%R 0%R false false false.

(** The position that [l[idx]] designates: [idx] counts from the end when
    negative; [None] stands for [IndexError]. *)
Definition py_index {A : Type} (l : list A) (idx : Z) : option nat :=
  let n := Z.of_nat (length l) in
  if ((0 <=? idx) && (idx <? n))%Z then Some (Z.to_nat idx)
  else if ((- n <=? idx) && (idx <? 0))%Z then Some (Z.to_nat (n + idx))
  else None.

(** [l[i] = g(l[i])] at a position inside the list. *)
Fixpoint update {A : Type} (g : A -> A) (i : nat) (l : list A) : list A :=
  match l, i with
  | [], _ => []
  | a :: t, O => g a :: t
  | a :: t, S j => a :: update g j t
  end.

Definition toggle (g : Band -> Band) (bands : list Band) (idx : Z) : option (list Band) :=
  match py_index bands idx with
  | Some i => Some (update g i bands)
  | None => None
  end.

Definition flip_muted (b : Band) : Band :=
  mkBand (type b) (f b) (width_type b) (width b) (g b) (negb (muted b)) (solo b) (invert b).
Definition flip_solo (b : Band) : Band :=
  mkBand (type b) (f b) (width_type b) (width b) (g b) (muted b) (negb (solo b)) (invert b).
Definition flip_invert (b : Band) : Band :=
  mkBand (type b) (f b) (width_type b) (width b) (g b) (muted b) (solo b) (negb (invert b)).

Definition _toggle_mute := toggle flip_muted.
Definition _toggle_solo := toggle flip_solo.
Definition _toggle_invert := toggle flip_invert.

(** [_remove_band]: [self.bands.pop(idx)] under the guard
    [0 <= idx < len(self.bands)]. *)
Definition _remove_band (bands : list Band) (idx : Z) : list Band :=
  if ((0 <=? idx) && (idx <? Z.of_nat (length bands)))%Z then
    firstn (Z.to_nat idx) bands ++ skipn (S (Z.to_nat idx)) bands
  else bands.

Definition add_band (bands : list Band) : list Band := bands ++ [default_band].

Section Filter.

(** Number formatting, taken as given: [str(int(x))] written by
    [f'{int(b.f)}'] and the general format [f'{x:g}']. *)
Variable int_text : R -> string.
Variable g_text : R -> string.

Local Open Scope string_scope.

(** [','.join(pieces)] *)
Fixpoint join_comma (pieces : list string) : string :=
  match pieces with
  | [] => ""
  | [p] => p
  | p :: rest => p ++ "," ++ join_comma rest
  end.

Definition filter_piece (b : Band) : string :=
  if String.eqb (type b) "highpass" then "highpass=f=" ++ int_text (f b)
  else if String.eqb (type b) "lowpass" then "lowpass=f=" ++ int_text (f b)
  else
    let wtype := if String.eqb (width_type b) "q" then "q" else "oct" in
    "equalizer=f=" ++ int_text (f b) ++ ":width_type=" ++ wtype
    ++ ":width=" ++ g_text (width b) ++ ":g=" ++ g_text (g b).

Definition build_ffmpeg_filter (bands : list Band) : string :=
  join_comma (map filter_piece bands).

End Filter.

End Editor.

(** * Further example inputs *)

Module MoreExamples.

Import Engine.
Local Open Scope Z_scope.




(** A band whose type is none of the three the evaluator knows. *)
Definition bell_band : Response.Band :=
  Response.mkBand "bell" 500 "q" 1 6 false false false.

(** What Tk delivers for two dropped files, the first with spaces in its
    name. *)
Definition two_dropped : list (string * string) :=
  [(""%string, "C:/My Music/a b.wav"%string); (" "%string, "x.mp3"%string)].

End MoreExamples.

(** * Example inputs *)

Module Examples.

Import Response.
Local Open Scope R_scope.

Definition band_A : Band := mkBand "parametric" 250 "q" 1 (-3) false false false.
Definition band_B : Band := mkBand "parametric" 3000 "q" 1 2 false true false.
Definition band_C : Band := mkBand "lowpass" 15000 "q" 1 0 true false false.

(** A muted band: the chain [[band_C]] has an empty effective set. *)
Definition lowpass_1_of_4 (inv : bool) : Band :=
  mkBand "lowpass" 1 "q" 1 0 false false inv.




End Examples.


Module EngineExamples.

Import Engine.
Local Open Scope Z_scope.

Definition wav16 (nch : nat) (frames : list (list Z)) : wave_read :=
  mkWaveRead nch 44100 2 frames.

(** A deterministic two-channel signal of 200 frames: a triangle wave on the
    left channel and its negation on the right. *)
Definition triangle (i : nat) : Z :=
  let p := Z.of_nat (i mod 44) in
  if p <? 22 then 1000 * p - 11000 else 33000 - 1000 * p.

Definition test_signal : list (list Z) :=
  map (fun i => [triangle i; - triangle i]) (seq 0 200).

(** The 9-tap averaging filter. *)
Definition averaging_fir : list Q := repeat (1 # 9)%Q 9.

(** The default block size of [overlap_add_convolve_wav]. *)
Definition default_block_size : nat := Nat.pow 2 16.

(** Five mono frames and a 3-tap filter, read two frames at a time. *)
Definition five_frames : wave_read := wav16 1 [[1]; [2]; [3]; [4]; [5]].
Definition ones3 : list Q := [1; 1; 1]%Q.

(** One mono frame at full negative scale. *)
Definition full_negative : wave_read := wav16 1 [[-32768]].

(** An 8-bit file. *)
Definition wav8 : wave_read := mkWaveRead 1 8000 1 [[1]; [2]].

End EngineExamples.
(** * Part III: properties of the response model and the FIR designer *)

Section ResponseTheory.

Import Response Examples.
Local Open Scope R_scope.

Lemma map2_length {A B D : Type} (h : A -> B -> D) (l : list A) (l' : list B) :
  length (map2 h l l') = Nat.min (length l) (length l').
Proof.
  revert l'; induction l as [|a t IH]; intros [|b t']; simpl; auto.
Qed.

Lemma copy_id (b : Band) : copy b = b.
Proof. destruct b; reflexivity. Qed.

Lemma map_copy_id (l : list Band) : map copy l = l.
Proof.
  induction l as [|b t IH]; simpl; [reflexivity|].
  now rewrite copy_id, IH.
Qed.

Lemma existsb_solo_false (bands : list Band) :
  (forall b, In b bands -> solo b = false) -> existsb solo bands = false.
Proof.
  induction bands as [|a t IH]; simpl; intros Hall; [reflexivity|].
  rewrite (Hall a (or_introl eq_refl)); simpl.
  apply IH; intros b Hb; apply Hall; now right.
Qed.

(** C4.  If some band is soloed, the effective bands are exactly the soloed
    bands (mute is ignored); if none is, they are exactly the bands that are
    not muted.  For [A] (not muted), [B] (solo) and [C] (muted), with the
    other flags at their defaults, the effective list is [[B]]. *)
Theorem C4_effective_bands_rule (bands : list Band) :
  ((exists b, In b bands /\ solo b = true) ->
     effective_bands bands = filter solo bands /\
     forall b, In b (effective_bands bands) <-> (In b bands /\ solo b = true))
  /\
  ((forall b, In b bands -> solo b = false) ->
     effective_bands bands = filter (fun b => negb (muted b)) bands /\
     forall b, In b (effective_bands bands) <-> (In b bands /\ muted b = false))
  /\
  (forall A B C : Band,
     muted A = false -> solo A = false ->
     solo B = true ->
     muted C = true -> solo C = false ->
     effective_bands [A; B; C] = [B]).
Proof.
  split; [|split].
  - intros [b0 [Hin Hs]].
    assert (E : existsb solo bands = true)
      by (apply existsb_exists; exists b0; auto).
    unfold effective_bands; rewrite E, map_copy_id.
    split; [reflexivity|].
    intros b; apply filter_In.
  - intros Hnone.
    unfold effective_bands; rewrite (existsb_solo_false _ Hnone), map_copy_id.
    split; [reflexivity|].
    intros b; rewrite filter_In.
    split; intros [H1 H2]; split; auto.
    + now apply negb_true_iff.
    + now apply negb_true_iff.
  - intros A B C HmA HsA HsB HmC HsC.
    unfold effective_bands; simpl.
    rewrite HsA, HsB, HsC; simpl.
    now rewrite copy_id.
Qed.

Lemma C4_effective_bands_witness :
  (forall b, In b (effective_bands [band_A; band_B; band_C])
             <-> (In b [band_A; band_B; band_C] /\ solo b = true))
  /\ (forall b, In b (effective_bands [band_A; band_C])
                <-> (In b [band_A; band_C] /\ muted b = false))
  /\ effective_bands [band_A; band_B; band_C] = [band_B].
Proof.
  split; [|split].
  - apply (proj1 (C4_effective_bands_rule [band_A; band_B; band_C])).
    exists band_B; split; [simpl; auto | reflexivity].
  - apply (proj1 (proj2 (C4_effective_bands_rule [band_A; band_C]))).
    intros b [H|[H|[]]]; subst b; reflexivity.
  - apply (proj2 (proj2 (C4_effective_bands_rule []))); reflexivity.
Defined.


(** ** The composite response *)

Lemma band_response_length (b : Band) (freqs : list R) (fs : R) :
  length (band_response b freqs fs) = length freqs.
Proof.
  unfold band_response, peaking_eq_response, lowpass_response,
    highpass_response, ones_like.
  repeat match goal with |- context [if ?c then _ else _] => destruct c end;
    apply length_map.
Qed.

Lemma fold_response_length (bands : list Band) (freqs : list R) (fs : R) (acc : list C) :
  length acc = length freqs ->
  length (fold_left (fun H_total b => map2 Cmul H_total (band_response b freqs fs))
                    bands acc) = length freqs.
Proof.
  revert acc; induction bands as [|b t IH]; simpl; intros acc Hacc; [exact Hacc|].
  apply IH. rewrite map2_length, band_response_length, Hacc. apply Nat.min_id.
Qed.

Lemma compute_total_response_length (bands : list Band) (freqs : list R) (fs : R) :
  length (compute_total_response bands freqs fs) = length freqs.
Proof.
  unfold compute_total_response. apply fold_response_length.
  unfold ones_like. apply length_map.
Qed.

Lemma Cabs_C1 : Cabs C1 = 1.
Proof.
  unfold Cabs, C1; simpl.
  replace (1 * 1 + 0 * 0) with 1 by ring. apply sqrt_1.
Qed.

Lemma db_of_unit : 20 * (ln (Rmax (Cabs C1) (1 / 10 ^ 12)) / ln 10) = 0.
Proof.
  rewrite Cabs_C1.
  rewrite Rmax_left.
  - rewrite ln_1. unfold Rdiv. ring.
  - assert (0 < 10 ^ 12) by (apply pow_lt; lra).
    apply Rlt_le. apply Rmult_lt_reg_r with (10 ^ 12); [assumption|].
    unfold Rdiv. rewrite Rmult_assoc, Rinv_l by lra.
    assert (1 < 10 ^ 12) by (simpl; lra). lra.
Qed.

(** C9.  When the effective band set is empty, the composite response is 1
    at every query frequency, whatever the grid and the sample rate, and its
    magnitude is 0 dB at every frequency. *)
Theorem C9_empty_effective_set_is_identity
        (bands : list Band) (freqs : list R) (fs : R) :
  effective_bands bands = [] ->
  compute_total_response (effective_bands bands) freqs fs = map (fun _ => C1) freqs
  /\ (forall k, (k < length freqs)%nat ->
        nth k (compute_total_response (effective_bands bands) freqs fs) (mkC 0 0) = C1)
  /\ magnitude_db (compute_total_response (effective_bands bands) freqs fs)
     = map (fun _ => 0) freqs.
Proof.
  intros ->. unfold compute_total_response, ones_like; simpl.
  split; [reflexivity|split].
  - intros k Hk.
    rewrite (nth_indep _ (mkC 0 0) C1) by (now rewrite length_map).
    exact (map_nth (fun _ : R => C1) freqs 0 k).
  - unfold magnitude_db. rewrite map_map.
    apply map_ext. intros _. apply db_of_unit.
Qed.

Lemma C9_empty_effective_set_witness :
  compute_total_response (effective_bands [band_C]) [20; 1000; 20000] 44100
  = [C1; C1; C1]
  /\ magnitude_db (compute_total_response (effective_bands [band_C]) [20; 1000; 20000] 44100)
     = [0; 0; 0].
Proof.
  destruct (C9_empty_effective_set_is_identity [band_C] [20; 1000; 20000] 44100 eq_refl)
    as [H1 [_ H3]].
  split; [exact H1 | exact H3].
Defined.

(** ** The invert flag *)

Lemma Cmul_C1_l (h : C) : Cmul C1 h = h.
Proof.
  destruct h as [x y]; unfold Cmul, C1; simpl. f_equal; ring.
Qed.

Lemma map2_Cmul_ones (freqs : list R) (H : list C) :
  length H = length freqs -> map2 Cmul (ones_like freqs) H = H.
Proof.
  revert H; induction freqs as [|a t IH]; intros [|h H']; simpl; intros E;
    try discriminate; [reflexivity|].
  rewrite Cmul_C1_l. f_equal. apply IH. now injection E.
Qed.

(** The composite response of a one-band chain is that band's response. *)
Lemma compute_total_response_single (b : Band) (freqs : list R) (fs : R) :
  compute_total_response [b] freqs fs = band_response b freqs fs.
Proof.
  unfold compute_total_response; simpl.
  apply map2_Cmul_ones, band_response_length.
Qed.

(** For a parametric band the flag negates the response, real and imaginary
    part alike. *)
Lemma parametric_invert_negates (b : Band) (freqs : list R) (fs : R) :
  type b = "parametric"%string ->
  compute_total_response [with_invert b true] freqs fs
  = map Cneg (compute_total_response [with_invert b false] freqs fs).
Proof.
  intros Ht. rewrite !compute_total_response_single.
  unfold band_response; simpl. rewrite Ht; simpl.
  unfold peaking_eq_response, peaking_Q, peaking_f0; simpl.
  rewrite map_map. reflexivity.
Qed.

(** For a lowpass or highpass band the flag is never read. *)
Lemma shelf_invert_ignored (b : Band) (freqs : list R) (fs : R) :
  type b = "lowpass"%string \/ type b = "highpass"%string ->
  compute_total_response [with_invert b true] freqs fs
  = compute_total_response [with_invert b false] freqs fs.
Proof.
  intros Ht. rewrite !compute_total_response_single.
  unfold band_response; simpl.
  destruct Ht as [-> | ->]; reflexivity.
Qed.

Lemma quarter_turn : 2 * PI * 1 / 4 = PI / 2.
Proof. field. Qed.

Lemma lowpass_dc_gain (inv : bool) :
  compute_total_response [lowpass_1_of_4 inv] [0] 4 = [C1].
Proof.
  rewrite compute_total_response_single.
  unfold band_response, lowpass_1_of_4; simpl.
  unfold lowpass_response; simpl.
  rewrite quarter_turn, cos_PI2, sin_PI2.
  unfold biquad_eval.
  replace (2 * PI * 0 / 4) with 0 by field.
  replace (- (2 * 0)) with 0 by ring.
  replace (- 0) with 0 by ring.
  unfold Cexp_i. rewrite cos_0, sin_0.
  unfold Cdiv, Cadd, Cscale, RtoC, C1; simpl.
  generalize (1 / (2 * (1 / sqrt 2))); intros a.
  f_equal. f_equal; field; lra.
Qed.

(** C2, evaluated on the code at a lowpass band.  At sample rate 4, cutoff 1
    and query frequency 0 the response is 1 with [invert] set and 1 with
    [invert] clear: the two are equal, not each other's negation. *)
Theorem C2_lowpass_invert_not_negated :
  compute_total_response [lowpass_1_of_4 true] [0] 4 = [C1]
  /\ compute_total_response [lowpass_1_of_4 false] [0] 4 = [C1]
  /\ compute_total_response [lowpass_1_of_4 true] [0] 4
     <> map Cneg (compute_total_response [lowpass_1_of_4 false] [0] 4).
Proof.
  split; [apply lowpass_dc_gain | split; [apply lowpass_dc_gain|]].
  rewrite !lowpass_dc_gain. simpl. unfold Cneg, C1; simpl.
  intros E. injection E as E1 _. lra.
Qed.

(** ** The effective Q of a parametric band *)


Lemma tiny_positive : 0 < 1 / 10 ^ 12.
Proof.
  apply Rdiv_lt_0_compat; [lra | apply pow_lt; lra].
Qed.

Lemma peaking_f0_ge_1 (band : Band) (fs : R) : 1 <= peaking_f0 band fs.
Proof. unfold peaking_f0. apply Rmax_l. Qed.







(** ** The FIR designer *)

Lemma even_taps_double (n : nat) :
  (1 <= n)%nat -> exists k, (1 <= k)%nat /\ even_taps n = (2 * k)%nat.
Proof.
  intros Hn. unfold even_taps.
  pose proof (Nat.div_mod_eq n 2) as Hdm.
  pose proof (Nat.mod_upper_bound n 2 ltac:(lia)) as Hlt.
  destruct (n mod 2 =? 0)%nat eqn:E; simpl.
  - apply Nat.eqb_eq in E. exists (n / 2)%nat. lia.
  - apply Nat.eqb_neq in E. exists (n / 2 + 1)%nat. lia.
Qed.

Lemma linspace_length (a b : R) (num : nat) : length (linspace a b num) = num.
Proof. unfold linspace. now rewrite length_map, length_seq. Qed.

Lemma slice_m2_0_rev_length {A : Type} (l : list A) :
  length (slice_m2_0_rev l) = (length l - 2)%nat.
Proof.
  unfold slice_m2_0_rev. rewrite length_rev, length_skipn, length_firstn. lia.
Qed.

Lemma ifft_length (X : list C) : length (ifft X) = length X.
Proof. unfold ifft. now rewrite length_map, length_seq. Qed.

Lemma hanning_length (M : nat) : length (hanning M) = M.
Proof.
  destruct M as [|[|M]]; try reflexivity.
  unfold hanning. now rewrite length_map, length_seq.
Qed.

Lemma fir_impulse_length (bands : list Band) (fs : R) (n_taps : nat) :
  (1 <= n_taps)%nat -> length (fir_impulse bands fs n_taps) = even_taps n_taps.
Proof.
  intros Hn. destruct (even_taps_double n_taps Hn) as [k [Hk Ek]].
  unfold fir_impulse. rewrite Ek.
  rewrite length_map, ifft_length, length_app, length_map, slice_m2_0_rev_length.
  rewrite compute_total_response_length, linspace_length.
  replace (2 * k / 2)%nat with k by (symmetry; rewrite Nat.mul_comm; apply Nat.div_mul; lia).
  lia.
Qed.

Lemma fir_windowed_length (bands : list Band) (fs : R) (n_taps : nat) :
  (1 <= n_taps)%nat -> length (fir_windowed bands fs n_taps) = even_taps n_taps.
Proof.
  intros Hn. unfold fir_windowed.
  rewrite map2_length, hanning_length, fir_impulse_length by assumption.
  apply Nat.min_id.
Qed.

Lemma Rsum_map_div (s : R) (h : list R) :
  Rsum (map (fun x => x / s) h) = Rsum h / s.
Proof.
  induction h as [|a t IH]; simpl.
  - unfold Rdiv. ring.
  - rewrite IH. unfold Rdiv. ring.
Qed.

(** The guarded normalisation.  For a requested tap count of at least 1, the
    designer returns as many coefficients as the tap count rounded up to an
    even number.  When the sum of the windowed samples exceeds 1e-12 in
    magnitude, the returned coefficients sum to 1; otherwise normalisation
    is skipped and the windowed samples are returned as they are. *)
Lemma design_normalisation_guard (bands : list Band) (fs : R) (n_taps : nat) :
  (1 <= n_taps)%nat ->
  length (design_linear_phase_fir bands fs n_taps) = even_taps n_taps
  /\ (1 / 10 ^ 12 < Rabs (Rsum (fir_windowed bands fs n_taps)) ->
      Rsum (design_linear_phase_fir bands fs n_taps) = 1)
  /\ (~ (1 / 10 ^ 12 < Rabs (Rsum (fir_windowed bands fs n_taps))) ->
      design_linear_phase_fir bands fs n_taps = fir_windowed bands fs n_taps).
Proof.
  intros Hn.
  pose proof (fir_windowed_length bands fs n_taps Hn) as Hlen.
  unfold design_linear_phase_fir.
  set (h := fir_windowed bands fs n_taps) in *.
  set (s := Rsum h).
  split; [|split].
  - rewrite firstn_all2.
    + destruct (Rlt_dec (1 / 10 ^ 12) (Rabs s)); [now rewrite length_map | assumption].
    + destruct (Rlt_dec (1 / 10 ^ 12) (Rabs s)); [rewrite length_map|]; lia.
  - intros Hs. destruct (Rlt_dec (1 / 10 ^ 12) (Rabs s)) as [_|Hc]; [|contradiction].
    rewrite firstn_all2 by (rewrite length_map; lia).
    rewrite Rsum_map_div. fold s.
    assert (s <> 0).
    { intros E. rewrite E, Rabs_R0 in Hs. pose proof tiny_positive. lra. }
    now field.
  - intros Hs. destruct (Rlt_dec (1 / 10 ^ 12) (Rabs s)) as [Hc|_]; [contradiction|].
    apply firstn_all2. lia.
Qed.

(** ** The designer at four taps *)

Lemma hanning_4 : hanning 4 = [0; 3 / 4; 3 / 4; 0].
Proof.
  unfold hanning. cbn [map seq Nat.sub].
  replace (2 * PI * INR 0 / INR 3) with 0 by (simpl; field).
  replace (2 * PI * INR 1 / INR 3) with (2 * (PI / 3)) by (simpl; field).
  replace (2 * PI * INR 2 / INR 3) with (PI / 3 + PI) by (simpl; field).
  replace (2 * PI * INR 3 / INR 3) with (2 * PI) by (simpl; field).
  rewrite cos_0, cos_2PI3, neg_cos, cos_PI3, cos_2PI.
  repeat (apply (f_equal2 (@cons R)); [lra|]). reflexivity.
Qed.

Lemma cos_3PI : cos (3 * PI) = -1.
Proof. replace (3 * PI) with (PI + 2 * INR 1 * PI) by (simpl; ring). rewrite cos_period. apply cos_PI. Qed.
Lemma sin_3PI : sin (3 * PI) = 0.
Proof. replace (3 * PI) with (PI + 2 * INR 1 * PI) by (simpl; ring). rewrite sin_period. apply sin_PI. Qed.

Lemma ifft4_re (x0 x1 x2 x3 : C) :
  exists h0 h3,
  map Re (ifft [x0; x1; x2; x3]) =
  [h0; (Re x0 - Im x1 - Re x2 + Im x3) / 4; (Re x0 - Re x1 + Re x2 - Re x3) / 4; h3].
Proof.
  unfold ifft. cbn [length seq map combine fst snd Csum fold_right].
  eexists; eexists.
  apply (f_equal2 (@cons R)); [reflexivity|].
  apply (f_equal2 (@cons R)); [|apply (f_equal2 (@cons R)); [|apply (f_equal2 (@cons R)); reflexivity]].
  - replace (2 * PI * INR 0 * INR 1 / INR 4) with 0 by (simpl; field).
    replace (2 * PI * INR 1 * INR 1 / INR 4) with (PI / 2) by (simpl; field).
    replace (2 * PI * INR 2 * INR 1 / INR 4) with PI by (simpl; field).
    replace (2 * PI * INR 3 * INR 1 / INR 4) with (3 * (PI / 2)) by (simpl; field).
    unfold Cexp_i. rewrite cos_0, sin_0, cos_PI2, sin_PI2, cos_PI, sin_PI, cos_3PI2, sin_3PI2.
    simpl. field.
  - replace (2 * PI * INR 0 * INR 2 / INR 4) with 0 by (simpl; field).
    replace (2 * PI * INR 1 * INR 2 / INR 4) with PI by (simpl; field).
    replace (2 * PI * INR 2 * INR 2 / INR 4) with (2 * PI) by (simpl; field).
    replace (2 * PI * INR 3 * INR 2 / INR 4) with (3 * PI) by (simpl; field).
    unfold Cexp_i. rewrite cos_0, sin_0, cos_PI, sin_PI, cos_2PI, sin_2PI, cos_3PI, sin_3PI.
    simpl. field.
Qed.

Lemma fir_windowed_4 (bands : list Band) (fs : R) (x0 x1 x2 : C) :
  compute_total_response bands (linspace 0 (fs / 2) 3) fs = [x0; x1; x2] ->
  Rsum (fir_windowed bands fs 4)
  = 3 / 4 * ((Re x0 - Im x1 - Re x2 - Im x1) / 4 + (Re x0 - Re x1 + Re x2 - Re x1) / 4).
Proof.
  intros E. unfold fir_windowed, fir_impulse.
  change (even_taps 4) with 4%nat. change (4 / 2 + 1)%nat with 3%nat.
  rewrite E. cbn [slice_m2_0_rev length Nat.sub firstn skipn rev app map].
  destruct (ifft4_re x0 x1 x2 (Cconj x1)) as [h0 [h3 Eh]].
  rewrite Eh. cbn [length]. rewrite hanning_4.
  cbn [map2 Rsum fold_right Cconj Re Im]. field.
Qed.

Lemma identity_windowed_sum (fs : R) : Rsum (fir_windowed [] fs 4) = 0.
Proof.
  rewrite (fir_windowed_4 [] fs C1 C1 C1) by reflexivity.
  unfold C1; simpl. field.
Qed.

Lemma lowpass_quarter_response :
  exists a, 0 < a /\
    compute_total_response [lowpass_1_of_4 false] (linspace 0 (4 / 2) 3) 4
    = [C1; mkC 0 (- a); mkC 0 0].
Proof.
  set (al := 1 / (2 * (1 / sqrt 2))).
  assert (Hal : 0 < al).
  { unfold al. pose proof (sqrt_lt_R0 2 ltac:(lra)) as Hs.
    apply Rdiv_lt_0_compat; [lra|].
    apply Rmult_lt_0_compat; [lra|]. apply Rdiv_lt_0_compat; lra. }
  exists (1 / (2 * al)). split.
  { apply Rdiv_lt_0_compat; lra. }
  rewrite compute_total_response_single.
  unfold band_response, lowpass_1_of_4; simpl.
  unfold lowpass_response; simpl.
  rewrite quarter_turn, cos_PI2, sin_PI2.
  fold al.
  replace (2 * PI * (0 + 0 * ((4 / 2 - 0) / (1 + 1))) / 4) with 0 by field.
  replace (2 * PI * (0 + 1 * ((4 / 2 - 0) / (1 + 1))) / 4) with (PI / 2) by field.
  replace (2 * PI * (0 + (1 + 1) * ((4 / 2 - 0) / (1 + 1))) / 4) with PI by field.
  unfold biquad_eval, Cexp_i.
  replace (- (2 * 0)) with 0 by ring.
  replace (- 0) with 0 by ring.
  replace (- (2 * (PI / 2))) with (- PI) by field.
  rewrite !cos_neg, !sin_neg.
  rewrite cos_0, sin_0, cos_PI2, sin_PI2, cos_PI, sin_PI, cos_2PI, sin_2PI.
  unfold Cdiv, Cadd, Cscale, RtoC, C1; simpl.
  repeat (apply (f_equal2 (@cons C)); [apply (f_equal2 mkC); field; lra|]).
  reflexivity.
Qed.

Lemma lowpass_windowed_sum :
  1 / 10 ^ 12 < Rabs (Rsum (fir_windowed [lowpass_1_of_4 false] 4 4)).
Proof.
  destruct lowpass_quarter_response as [a [Ha E]].
  rewrite (fir_windowed_4 _ 4 _ _ _ E). simpl Re; simpl Im.
  assert (Hpos : 3 / 16 <= 3 / 4 * ((1 - - a - 0 - - a) / 4 + (1 - 0 + 0 - 0) / 4)) by lra.
  rewrite Rabs_right by lra.
  assert (1 / 10 ^ 12 < 3 / 16); [|lra].
  apply Rmult_lt_reg_r with (10 ^ 12); [apply pow_lt; lra|].
  replace (1 / 10 ^ 12 * 10 ^ 12) with 1 by (field; apply pow_nonzero; lra).
  simpl; lra.
Qed.

Lemma identity_not_normalised (fs : R) :
  ~ (1 / 10 ^ 12 < Rabs (Rsum (fir_windowed [] fs 4))).
Proof.
  rewrite identity_windowed_sum, Rabs_R0. pose proof tiny_positive. lra.
Qed.

Lemma design_normalisation_guard_example :
  length (design_linear_phase_fir [lowpass_1_of_4 false] 4 4) = 4%nat
  /\ Rsum (design_linear_phase_fir [lowpass_1_of_4 false] 4 4) = 1
  /\ design_linear_phase_fir [] 4 4 = fir_windowed [] 4 4.
Proof.
  split; [|split].
  - apply (proj1 (design_normalisation_guard [lowpass_1_of_4 false] 4 4 ltac:(lia))).
  - apply (proj1 (proj2 (design_normalisation_guard [lowpass_1_of_4 false] 4 4 ltac:(lia)))).
    apply lowpass_windowed_sum.
  - apply (proj2 (proj2 (design_normalisation_guard [] 4 4 ltac:(lia)))).
    apply identity_not_normalised.
Defined.

(** The empty band chain at four taps: the four coefficients designed from
    it (at 44.1 kHz) sum to 0, which is not within 1e-6 of 1.  The window is
    zero at index 0, where the only non-zero sample of the identity impulse
    response lies, so the sum before normalisation is 0 and normalisation is
    skipped. *)
Lemma empty_chain_four_taps :
  Rsum (design_linear_phase_fir [] 44100 4) = 0
  /\ ~ (Rabs (Rsum (design_linear_phase_fir [] 44100 4) - 1) <= 1 / 10 ^ 6).
Proof.
  assert (E : design_linear_phase_fir [] 44100 4 = fir_windowed [] 44100 4).
  { unfold design_linear_phase_fir.
    destruct (Rlt_dec _ _) as [Hc|_].
    - exfalso. exact (identity_not_normalised 44100 Hc).
    - apply firstn_all2. rewrite fir_windowed_length by lia. reflexivity. }
  rewrite E, identity_windowed_sum.
  split; [reflexivity|].
  rewrite Rabs_left by lra.
  intros Hc.
  assert (1 / 10 ^ 6 < 1); [|lra].
  apply Rmult_lt_reg_r with (10 ^ 6); [apply pow_lt; lra|].
  replace (1 / 10 ^ 6 * 10 ^ 6) with 1 by (field; apply pow_nonzero; lra).
  simpl; lra.
Qed.

(** A request for zero taps: the sum before normalisation is 1, and the
    result, cut to zero samples, is empty. *)
Lemma zero_taps_windowed_sum (fs : R) : Rsum (fir_windowed [] fs 0) = 1.
Proof.
  unfold fir_windowed, fir_impulse.
  change (even_taps 0) with 0%nat. change (0 / 2 + 1)%nat with 1%nat.
  unfold compute_total_response, linspace, ones_like.
  cbn [seq map fold_left slice_m2_0_rev length Nat.sub firstn skipn rev app].
  unfold ifft.
  cbn [length seq map combine fst snd Csum fold_right hanning map2 Rsum Re Im
       Cscale Cmul Cadd Cexp_i C1].
  replace (2 * PI * INR 0 * INR 0 / INR 1) with 0 by (simpl; field).
  rewrite cos_0, sin_0. simpl. field.
Qed.

Lemma zero_taps_design (bands : list Band) (fs : R) :
  design_linear_phase_fir bands fs 0 = [].
Proof. reflexivity. Qed.

End ResponseTheory.

(** * Part IV: properties of the convolution engine *)

Section EngineTheory.

Import Engine EngineExamples.
Local Open Scope nat_scope.

(** ** Shapes *)

Lemma bit_length_nonneg (z : Z) : (0 <= bit_length z)%Z.
Proof.
  unfold bit_length. destruct (z =? 0)%Z; [lia|].
  pose proof (Z.log2_nonneg (Z.abs z)). lia.
Qed.

Lemma next_pow2_ge (x : Z) : (x <= next_pow2 x)%Z.
Proof.
  unfold next_pow2. rewrite Z.shiftl_1_l.
  pose proof (bit_length_nonneg (x - 1)) as Hb.
  unfold bit_length in *.
  destruct (x - 1 =? 0)%Z eqn:E.
  - apply Z.eqb_eq in E. simpl. lia.
  - apply Z.eqb_neq in E.
    destruct (Z_lt_le_dec (x - 1) 0) as [Hneg|Hpos].
    + pose proof (Z.pow_pos_nonneg 2 (Z.log2 (Z.abs (x - 1)) + 1) ltac:(lia) Hb). lia.
    + rewrite Z.abs_eq by lia.
      pose proof (Z.log2_spec (x - 1) ltac:(lia)) as [_ Hup].
      unfold Z.succ in Hup. lia.
Qed.

Lemma fft_size_ge (block_size Lh : nat) :
  1 <= Lh ->
  block_size + Lh - 1
  <= Z.to_nat (next_pow2 (Z.of_nat block_size + Z.of_nat Lh - 1)).
Proof.
  intros HL.
  pose proof (next_pow2_ge (Z.of_nat block_size + Z.of_nat Lh - 1)). lia.
Qed.

Lemma of_columns_length (rows : nat) (cols : list (list Q)) :
  length (of_columns rows cols) = rows.
Proof. unfold of_columns. now rewrite length_map, length_seq. Qed.

Lemma filter_block_length (nch N : nat) (H : spectrum) (data : array2) :
  length (filter_block nch N H data) = N.
Proof. unfold filter_block. apply of_columns_length. Qed.

Lemma zeros2_length (rows nch : nat) : length (zeros2 rows nch) = rows.
Proof. unfold zeros2. apply repeat_length. Qed.

Lemma np_add_mismatch (a b : array2) :
  length a <> length b -> length b <> 1 -> length a <> 1 -> np_add a b = None.
Proof.
  intros H1 H2 H3. unfold np_add.
  apply Nat.eqb_neq in H1, H2, H3. now rewrite H1, H2, H3.
Qed.


(** ** The first block of a long input *)

(** When the first block holds more frames than the overlap buffer has rows
    (and neither count is 1), the addition [Y[:m, :] + overlap[:m, :]] is
    refused: the call raises before anything is written. *)
Lemma first_block_shape_mismatch (wf : wave_read) (fir : list Q) (block_size : nat)
      (have_queue : bool) (task_id : option string) :
  getsampwidth wf = 2%Z ->
  1 <= length fir ->
  length fir - 1 < Nat.min block_size (getnframes wf) ->
  length fir - 1 <> 1 ->
  Nat.min block_size (getnframes wf) <> 1 ->
  overlap_add_convolve_wav wf fir block_size have_queue task_id
  = (mkSession (Some (mkWaveWrite (getnchannels wf) 2 (getframerate wf) []))
               (Nat.min block_size (getnframes wf)) [],
     Raise (ValueError_broadcast (Nat.min block_size (getnframes wf))
                                 (length fir - 1))).
Proof.
  intros Hsw HL Hm HL1 Hm1.
  unfold overlap_add_convolve_wav. rewrite Hsw. cbn [Z.eqb Pos.eqb negb].
  destruct (length fir) as [|L'] eqn:EL; [lia|].
  rewrite <- EL in HL, Hm, HL1 |- *. clear EL L'.
  unfold getnframes in *.
  set (m := Nat.min block_size (length (frames_of wf))) in *.
  cbn [block_loop].
  assert (Elen : length (firstn block_size (frames_of wf)) = m)
    by (rewrite length_firstn; reflexivity).
  destruct (firstn block_size (frames_of wf)) as [|fr0 frs] eqn:Efr.
  { simpl in Elen. lia. }
  rewrite length_map, Elen.
  set (Y := filter_block _ _ _ _).
  set (ov := zeros2 _ _).
  assert (HY : length (firstn m Y) = m).
  { rewrite length_firstn. unfold Y. rewrite filter_block_length.
    pose proof (fft_size_ge block_size (length fir) HL).
    unfold m in *. lia. }
  assert (Hov : length (firstn m ov) = length fir - 1).
  { rewrite length_firstn. unfold ov. rewrite zeros2_length. lia. }
  rewrite np_add_mismatch by lia.
  rewrite HY, Hov. unfold note_read, open_out, fresh. cbn. reflexivity.
Qed.



(** C1, evaluated on the code.  On every 16-bit file of 200 frames, with
    every 9-tap filter and every block size of at least 200 (the default is
    65536), the call raises [ValueError]: the 200 rows of the filtered block
    cannot be added to the 8 rows of the overlap buffer.  All 200 frames
    have been read, the output file exists and holds no frame. *)
Theorem C1_test_signal_raises (wf : wave_read) (fir : list Q) (block_size : nat)
        (have_queue : bool) (task_id : option string) :
  getsampwidth wf = 2%Z ->
  getnframes wf = 200 ->
  length fir = 9 ->
  200 <= block_size ->
  overlap_add_convolve_wav wf fir block_size have_queue task_id
  = (mkSession (Some (mkWaveWrite (getnchannels wf) 2 (getframerate wf) [])) 200 [],
     Raise (ValueError_broadcast 200 8)).
Proof.
  intros Hsw HF HL Hbs.
  rewrite (first_block_shape_mismatch wf fir block_size have_queue task_id Hsw);
    rewrite ?HF, ?HL; try lia.
  replace (Nat.min block_size 200) with 200 by lia.
  reflexivity.
Qed.

Lemma default_block_size_ge_200 : 200 <= default_block_size.
Proof. apply Nat.leb_le. vm_compute. reflexivity. Qed.

Lemma C1_test_signal_witness :
  overlap_add_convolve_wav (wav16 2 test_signal) averaging_fir default_block_size
                           true (Some "task"%string)
  = (mkSession (Some (mkWaveWrite 2 2 44100 [])) 200 [],
     Raise (ValueError_broadcast 200 8)).
Proof.
  apply (C1_test_signal_raises (wav16 2 test_signal) averaging_fir default_block_size
                               true (Some "task"%string)).
  - reflexivity.
  - vm_compute. reflexivity.
  - vm_compute. reflexivity.
  - apply default_block_size_ge_200.
Defined.

(** Where no exception is raised the output can still be wrong: with blocks
    of two frames and three taps, the last block has one frame, and the part
    of the old overlap beyond it is dropped instead of carried.  The sixth
    output sample is 5; direct convolution gives 9. *)
Lemma streaming_differs_from_direct :
  snd (overlap_add_convolve_wav five_frames ones3 2 false None) = Ok tt
  /\ written (fst (overlap_add_convolve_wav five_frames ones3 2 false None))
     = [[1]; [3]; [6]; [9]; [12]; [5]; [5]]%Z
  /\ direct_output five_frames ones3 = [[1]; [3]; [6]; [9]; [12]; [9]; [5]]%Z
  /\ within_one_lsb
       (written (fst (overlap_add_convolve_wav five_frames ones3 2 false None)))
       (direct_output five_frames ones3) = false.
Proof. vm_compute. repeat split; reflexivity. Qed.

(** C10, evaluated on the code.  Whenever the first block has more frames
    than the filter has taps minus one (and neither count is 1), the call
    raises and the output file holds 0 frames, not [F + L - 1].  With a
    one-tap filter and a one-frame input the call returns normally and has
    written 0 frames, not 1. *)
Theorem C10_frame_count_not_reached (wf : wave_read) (fir : list Q) (block_size : nat)
        (have_queue : bool) (task_id : option string) :
  getsampwidth wf = 2%Z ->
  1 <= length fir ->
  length fir - 1 < Nat.min block_size (getnframes wf) ->
  length fir - 1 <> 1 ->
  Nat.min block_size (getnframes wf) <> 1 ->
  (exists rows_a rows_b,
      snd (overlap_add_convolve_wav wf fir block_size have_queue task_id)
      = Raise (ValueError_broadcast rows_a rows_b))
  /\ length (written (fst (overlap_add_convolve_wav wf fir block_size have_queue task_id)))
     = 0
  /\ length (written (fst (overlap_add_convolve_wav wf fir block_size have_queue task_id)))
     <> getnframes wf + (length fir - 1)
  /\ (snd (overlap_add_convolve_wav (wav16 1 [[7%Z]]) [1%Q] 1 false None) = Ok tt
      /\ length (written (fst (overlap_add_convolve_wav (wav16 1 [[7%Z]]) [1%Q] 1 false None)))
         = 0).
Proof.
  intros Hsw HL Hm HL1 Hm1.
  rewrite (first_block_shape_mismatch wf fir block_size have_queue task_id Hsw HL Hm HL1 Hm1).
  cbn [fst snd written out_wav w_frames length].
  split; [eauto|]. split; [reflexivity|]. split; [lia|].
  vm_compute. split; reflexivity.
Qed.

Lemma C10_frame_count_witness :
  length (written (fst (overlap_add_convolve_wav (wav16 2 test_signal) averaging_fir
                                                 default_block_size false None)))
  = 0
  /\ getnframes (wav16 2 test_signal) + (length averaging_fir - 1) = 208.
Proof.
  split.
  - apply (C10_frame_count_not_reached (wav16 2 test_signal) averaging_fir
                                       default_block_size false None).
    + reflexivity.
    + vm_compute. lia.
    + apply Nat.ltb_lt. vm_compute. reflexivity.
    + vm_compute. lia.
    + apply Nat.eqb_neq. vm_compute. reflexivity.
  - vm_compute. reflexivity.
Defined.

(** ** Clamping *)

Local Open Scope Q_scope.

Lemma astype_int16_mono (a b : Q) : a <= b -> (astype_int16 a <= astype_int16 b)%Z.
Proof.
  destruct a as [n d], b as [n' d']. unfold Qle, astype_int16; simpl. intros H.
  (* n/d <= n'/d' *)
  rewrite <- (Z.quot_mul_cancel_r n (Zpos d) (Zpos d')) by lia.
  rewrite <- (Z.quot_mul_cancel_l n' (Zpos d') (Zpos d)) by lia.
  rewrite (Z.mul_comm (Zpos d) n').
  apply Z.quot_le_mono; lia.
Qed.

Lemma astype_int16_inject (z : Z) : astype_int16 (inject_Z z) = z.
Proof. unfold astype_int16, inject_Z; simpl. apply Z.quot_1_r. Qed.

Lemma qmax_spec (a b : Q) : (a <= b -> qmax a b = b) /\ (~ a <= b -> qmax a b = a).
Proof.
  unfold qmax. destruct (Qle_bool a b) eqn:E.
  - split; [reflexivity|]. intros H. apply Qle_bool_iff in E. contradiction.
  - split; [|reflexivity]. intros H. apply Qle_bool_iff in H. congruence.
Qed.

Lemma qmin_spec (a b : Q) : (a <= b -> qmin a b = a) /\ (~ a <= b -> qmin a b = b).
Proof.
  unfold qmin. destruct (Qle_bool a b) eqn:E.
  - split; [reflexivity|]. intros H. apply Qle_bool_iff in E. contradiction.
  - split; [|reflexivity]. intros H. apply Qle_bool_iff in H. congruence.
Qed.

Lemma np_clip_bounds (v lo hi : Q) : lo <= hi -> lo <= np_clip v lo hi /\ np_clip v lo hi <= hi.
Proof.
  intros Hlh. unfold np_clip.
  destruct (Qlt_le_dec lo v) as [Hv|Hv].
  - rewrite (proj2 (qmax_spec v lo)) by (apply Qlt_not_le; assumption).
    destruct (Qlt_le_dec hi v) as [Hh|Hh].
    + rewrite (proj2 (qmin_spec v hi)) by (apply Qlt_not_le; assumption).
      split; [assumption | apply Qle_refl].
    + rewrite (proj1 (qmin_spec v hi)) by assumption.
      split; [apply Qlt_le_weak; assumption | assumption].
  - rewrite (proj1 (qmax_spec v lo)) by assumption.
    rewrite (proj1 (qmin_spec lo hi)) by assumption.
    split; [apply Qle_refl | assumption].
Qed.

Lemma clamp_sample_range (v : Q) : (-32767 <= clamp_sample v <= 32767)%Z.
Proof.
  unfold clamp_sample.
  destruct (np_clip_bounds v (-32767 # 1) (32767 # 1)) as [Hlo Hhi]; [discriminate|].
  apply astype_int16_mono in Hlo, Hhi.
  change (astype_int16 (-32767 # 1)) with (-32767)%Z in Hlo.
  change (astype_int16 (32767 # 1)) with 32767%Z in Hhi.
  lia.
Qed.

Lemma astype_int16_eq (a b : Q) : a == b -> astype_int16 a = astype_int16 b.
Proof.
  intros E. apply Z.le_antisymm; apply astype_int16_mono; rewrite E; apply Qle_refl.
Qed.

Lemma np_clip_low (v : Q) : v <= -32767 # 1 -> np_clip v (-32767 # 1) (32767 # 1) = -32767 # 1.
Proof.
  intros H. unfold np_clip. rewrite (proj1 (qmax_spec _ _) H). reflexivity.
Qed.

Lemma np_clip_high (v : Q) : 32767 # 1 <= v -> np_clip v (-32767 # 1) (32767 # 1) == 32767 # 1.
Proof.
  intros H. unfold np_clip.
  rewrite (proj2 (qmax_spec v (-32767 # 1))).
  - destruct (Qlt_le_dec (32767 # 1) v) as [Hh|Hh].
    + rewrite (proj2 (qmin_spec v _)) by (apply Qlt_not_le; assumption). reflexivity.
    + rewrite (proj1 (qmin_spec v _)) by assumption. apply Qle_antisym; assumption.
  - apply Qlt_not_le. apply Qlt_le_trans with (32767 # 1); [reflexivity | assumption].
Qed.

Lemma np_clip_mid (v : Q) :
  -32767 # 1 <= v -> v <= 32767 # 1 -> np_clip v (-32767 # 1) (32767 # 1) == v.
Proof.
  intros Hlo Hhi. unfold np_clip.
  destruct (Qlt_le_dec (-32767 # 1) v) as [Hv|Hv].
  - rewrite (proj2 (qmax_spec v _)) by (apply Qlt_not_le; assumption).
    rewrite (proj1 (qmin_spec v _)) by assumption. reflexivity.
  - rewrite (proj1 (qmax_spec v _)) by assumption.
    rewrite (proj1 (qmin_spec _ _)) by discriminate.
    apply Qle_antisym; assumption.
Qed.

Lemma truncation_error (v : Q) : Qabs (v - inject_Z (astype_int16 v)) < 1.
Proof.
  destruct v as [n d]. unfold astype_int16; simpl.
  pose proof (Z.quot_rem' n (Zpos d)) as Hqr.
  pose proof (Z.rem_bound_abs n (Zpos d) ltac:(lia)) as Hb.
  set (q := (n ÷ Z.pos d)%Z) in *.
  unfold Qlt; simpl.
  rewrite ?Pos.mul_1_r, ?Z.mul_1_r.
  lia.
Qed.

Local Close Scope Q_scope.

Lemma clamp_block_in_range (a : array2) :
  Forall (Forall (fun s => (-32767 <= s <= 32767)%Z)) (clamp_block a).
Proof.
  unfold clamp_block. apply Forall_map, Forall_forall. intros row _.
  apply Forall_map, Forall_forall. intros v _. apply clamp_sample_range.
Qed.

Lemma written_writeframes (P : list Z -> Prop) (fr : list (list Z)) (st : session) :
  Forall P (written st) -> Forall P fr -> Forall P (written (writeframes fr st)).
Proof.
  intros H1 H2. unfold written, writeframes in *.
  destruct (out_wav st) as [w|] eqn:E; cbn [out_wav w_frames].
  - apply Forall_app; auto.
  - rewrite E. constructor.
Qed.

Lemma written_put (e : event) (st : session) : written (put e st) = written st.
Proof. reflexivity. Qed.


Lemma block_loop_written_in_range nch fir block_size N H total reporting fuel :
  forall remaining overlap processed st,
    Forall (Forall (fun s => (-32767 <= s <= 32767)%Z)) (written st) ->
    Forall (Forall (fun s => (-32767 <= s <= 32767)%Z))
           (written (fst (block_loop nch fir block_size N H total reporting
                                     fuel remaining overlap processed st))).
Proof.
  induction fuel as [|fuel IH]; intros remaining overlap processed st Hst;
    cbn [block_loop]; [exact Hst|].
  destruct (firstn block_size remaining) as [|fr0 frs]; [exact Hst|].
  destruct (np_add _ _) as [out_block|]; [|exact Hst].
  apply IH.
  destruct reporting as [tid|]; rewrite ?written_put;
    apply written_writeframes; auto using clamp_block_in_range.
Qed.

Lemma written_in_range (wf : wave_read) (fir : list Q) (block_size : nat)
      (have_queue : bool) (task_id : option string) :
  Forall (Forall (fun s => (-32767 <= s <= 32767)%Z))
         (written (fst (overlap_add_convolve_wav wf fir block_size have_queue task_id))).
Proof.
  unfold overlap_add_convolve_wav.
  destruct (negb (getsampwidth wf =? 2)%Z); [constructor|].
  destruct (length fir) as [|L'] eqn:EL; [constructor|].
  match goal with
  | |- context [block_loop ?a ?b ?c ?d ?e ?f ?g ?h ?i ?j ?k ?l] =>
      pose proof (block_loop_written_in_range a b c d e f g h i j k l
                    ltac:(constructor)) as Hloop;
      destruct (block_loop a b c d e f g h i j k l) as [st [tail|e']]
  end; cbn [fst] in *; [|exact Hloop].
  destruct (reports have_queue task_id) as [tid|]; rewrite ?written_put;
    destruct (0 <? length tail); auto;
    apply written_writeframes; auto using clamp_block_in_range.
Qed.

(** C3, refuted as stated: the exact first output sample of a one-frame file
    at full negative scale through the filter [1, 0] is -32768, which lies in
    the 16-bit range, and the sample written is -32767. *)
Lemma C3_full_negative_counterexample :
  direct_convolution [inject_Z (-32768)] [1%Q; 0%Q] = [inject_Z (-32768); 0%Q]
  /\ written (fst (overlap_add_convolve_wav full_negative [1%Q; 0%Q] 1 false None))
     = [[-32767]; [0]]%Z
  /\ clamp_sample (inject_Z (-32768)) <> (-32768)%Z.
Proof. vm_compute. repeat split; try reflexivity. discriminate. Qed.

Lemma written_writeframes_app (fr : list (list Z)) (st : session) :
  out_wav st <> None ->
  written (writeframes fr st) = written st ++ fr
  /\ out_wav (writeframes fr st) <> None.
Proof.
  intros Hopen. unfold written, writeframes.
  destruct (out_wav st) as [w|]; [|contradiction].
  cbn [out_wav w_frames]. split; [reflexivity | discriminate].
Qed.

Lemma clamp_block_app (a b : array2) :
  clamp_block (a ++ b) = clamp_block a ++ clamp_block b.
Proof. unfold clamp_block. apply map_app. Qed.

(** The frames on file after the loop and the tail flush are the frames on
    file before, followed by the clipped and converted rows that reached
    [np.clip]. *)
Lemma block_loop_written_unclipped nch fir block_size N H total reporting fuel :
  forall remaining overlap processed st,
    out_wav st <> None ->
    match block_loop nch fir block_size N H total reporting
                     fuel remaining overlap processed st with
    | (st', Ok tail) =>
        written (if (0 <? length tail)%nat
                 then writeframes (clamp_block tail) st' else st')
        = written st
          ++ clamp_block (concat (clip_inputs nch fir block_size N H
                                              fuel remaining overlap))
    | (st', Raise _) =>
        written st'
        = written st
          ++ clamp_block (concat (clip_inputs nch fir block_size N H
                                              fuel remaining overlap))
    end.
Proof.
  induction fuel as [|fuel IH]; intros remaining overlap processed st Hopen;
    cbn [block_loop clip_inputs].
  - cbn [concat clamp_block map]. now rewrite app_nil_r.
  - destruct (firstn block_size remaining) as [|fr0 frs] eqn:Efr.
    + destruct (0 <? length overlap)%nat.
      * cbn [concat]. rewrite app_nil_r.
        apply (written_writeframes_app _ _ Hopen).
      * cbn [concat clamp_block map]. now rewrite app_nil_r.
    + cbv zeta.
      destruct (np_add _ _) as [out_block|].
      * cbn [concat]. rewrite clamp_block_app, app_assoc.
        set (st1 := writeframes (clamp_block out_block)
                                (note_read (length (fr0 :: frs)) st)).
        assert (H1 : written st1 = written st ++ clamp_block out_block
                     /\ out_wav st1 <> None).
        { destruct (written_writeframes_app (clamp_block out_block)
                      (note_read (length (fr0 :: frs)) st) Hopen) as [A B].
          split; [exact A | exact B]. }
        destruct H1 as [Hw1 Ho1]. rewrite <- Hw1.
        destruct reporting as [tid|].
        -- rewrite <- (written_put
                         (progress tid
                            (progress_pct total
                               (processed + length (map (map inject_Z) (fr0 :: frs)))))
                         st1).
           apply IH. exact Ho1.
        -- apply IH. exact Ho1.
      * cbn [concat clamp_block map]. now rewrite app_nil_r.
Qed.

(** What is on file when a call ends, however it ends: the clipped and
    converted rows that reached [np.clip], in order. *)
Lemma written_is_clamped_unclipped (wf : wave_read) (fir : list Q) (block_size : nat)
      (have_queue : bool) (task_id : option string) :
  written (fst (overlap_add_convolve_wav wf fir block_size have_queue task_id))
  = clamp_block (unclipped_output wf fir block_size).
Proof.
  unfold overlap_add_convolve_wav, unclipped_output.
  destruct (negb (getsampwidth wf =? 2)%Z); [reflexivity|].
  destruct (length fir) as [|L'] eqn:EL; [reflexivity|].
  match goal with
  | |- context [block_loop ?a ?b ?c ?d ?e ?f ?g ?h ?i ?j ?k ?l] =>
      pose proof (block_loop_written_unclipped a b c d e f g h i j k l
                    ltac:(discriminate)) as Hloop;
      destruct (block_loop a b c d e f g h i j k l) as [st [tail|e']]
  end.
  - cbn [fst]. destruct (reports have_queue task_id); rewrite ?written_put;
      exact Hloop.
  - exact Hloop.
Qed.

(** C3, as the code has it.  The frames on file when a call ends, however it
    ends, are exactly the rows that reached [np.clip] (every [out_block] and
    the final [tail]), each sample clipped to [-32767, 32767] and then
    converted by discarding the fractional part: a value at or below -32767
    becomes -32767, a value at or above 32767 becomes 32767, a value in
    between is rounded toward zero (so it moves by less than 1, and an
    integer is unchanged).  Hence every sample the engine writes, in a block
    or in the tail, lies in [-32767, 32767]. *)
Theorem C3_samples_clipped (v : Q) (z : Z) (wf : wave_read) (fir : list Q)
        (block_size : nat) (have_queue : bool) (task_id : option string)
        (fr : list Z) (s : Z) :
  ((v <= -32767 # 1)%Q -> clamp_sample v = (-32767)%Z)
  /\ ((32767 # 1 <= v)%Q -> clamp_sample v = 32767%Z)
  /\ ((-32767 # 1 <= v)%Q -> (v <= 32767 # 1)%Q ->
      clamp_sample v = (Qnum v ÷ Zpos (Qden v))%Z
      /\ (Qabs (v - inject_Z (clamp_sample v)) < 1)%Q)
  /\ ((-32767 <= z <= 32767)%Z -> clamp_sample (inject_Z z) = z)
  /\ (In fr (written (fst (overlap_add_convolve_wav wf fir block_size have_queue task_id))) ->
      In s fr -> (-32767 <= s <= 32767)%Z)
  /\ written (fst (overlap_add_convolve_wav wf fir block_size have_queue task_id))
     = map (map clamp_sample) (unclipped_output wf fir block_size).
Proof.
  split; [|split; [|split; [|split; [|split]]]].
  - intros Hv. unfold clamp_sample. now rewrite np_clip_low.
  - intros Hv. unfold clamp_sample.
    now rewrite (astype_int16_eq _ _ (np_clip_high v Hv)).
  - intros Hlo Hhi. unfold clamp_sample.
    rewrite (astype_int16_eq _ _ (np_clip_mid v Hlo Hhi)).
    split; [reflexivity | apply truncation_error].
  - intros Hz. unfold clamp_sample.
    rewrite (astype_int16_eq _ (inject_Z z)).
    + apply astype_int16_inject.
    + apply np_clip_mid; unfold Qle, inject_Z; simpl; lia.
  - intros Hfr Hs.
    pose proof (written_in_range wf fir block_size have_queue task_id) as Hall.
    rewrite Forall_forall in Hall. specialize (Hall fr Hfr).
    rewrite Forall_forall in Hall. apply (Hall s Hs).
  - apply written_is_clamped_unclipped.
Qed.

Lemma C3_samples_clipped_witness :
  clamp_sample (-40000 # 1) = (-32767)%Z
  /\ clamp_sample (40000 # 1) = 32767%Z
  /\ clamp_sample (-5 # 2) = (-2)%Z
  /\ clamp_sample (inject_Z 123) = 123%Z
  /\ (-32767 <= 12 <= 32767)%Z
  /\ written (fst (overlap_add_convolve_wav five_frames ones3 2 false None))
     = map (map clamp_sample) (unclipped_output five_frames ones3 2).
Proof.
  pose proof (C3_samples_clipped (-40000 # 1) 123 five_frames ones3 2 false None
                                 [12%Z] 12%Z) as [H1 _].
  pose proof (C3_samples_clipped (40000 # 1) 123 five_frames ones3 2 false None
                                 [12%Z] 12%Z) as [_ [H2 _]].
  pose proof (C3_samples_clipped (-5 # 2) 123 five_frames ones3 2 false None
                                 [12%Z] 12%Z) as [_ [_ [H3 [H4 [H5 H6]]]]].
  split; [apply H1; vm_compute; discriminate|].
  split; [apply H2; vm_compute; discriminate|].
  split; [apply H3; vm_compute; discriminate|].
  split; [apply H4; lia|].
  split; [|exact H6].
  apply H5; [vm_compute; tauto | simpl; tauto].
Defined.

(** ** The sample-width gate *)

Lemma block_loop_not_sample_width nch fir block_size N H total reporting fuel :
  forall remaining overlap processed st,
    snd (block_loop nch fir block_size N H total reporting
                    fuel remaining overlap processed st)
    <> Raise RuntimeError_sample_width.
Proof.
  induction fuel as [|fuel IH]; intros remaining overlap processed st;
    cbn [block_loop]; [discriminate|].
  destruct (firstn block_size remaining) as [|fr0 frs]; [discriminate|].
  destruct (np_add _ _) as [out_block|]; [apply IH | discriminate].
Qed.

(** C7.  When the sample width of the input is not 2 bytes the call raises
    at once: no output file has been created, no input frame has been read,
    no sample has been written and no event has been put.  When it is 2
    bytes, that error is never raised. *)
Theorem C7_sample_width_gate (wf : wave_read) (fir : list Q) (block_size : nat)
        (have_queue : bool) (task_id : option string) :
  (getsampwidth wf <> 2%Z ->
   overlap_add_convolve_wav wf fir block_size have_queue task_id
   = (fresh, Raise RuntimeError_sample_width)
   /\ out_wav (fst (overlap_add_convolve_wav wf fir block_size have_queue task_id)) = None
   /\ frames_read (fst (overlap_add_convolve_wav wf fir block_size have_queue task_id)) = 0
   /\ written (fst (overlap_add_convolve_wav wf fir block_size have_queue task_id)) = []
   /\ ui_queue (fst (overlap_add_convolve_wav wf fir block_size have_queue task_id)) = [])
  /\
  (getsampwidth wf = 2%Z ->
   snd (overlap_add_convolve_wav wf fir block_size have_queue task_id)
   <> Raise RuntimeError_sample_width).
Proof.
  split.
  - intros Hsw. apply Z.eqb_neq in Hsw.
    unfold overlap_add_convolve_wav. rewrite Hsw. cbn [negb].
    repeat split; reflexivity.
  - intros Hsw. unfold overlap_add_convolve_wav. rewrite Hsw. cbn [Z.eqb Pos.eqb negb].
    destruct (length fir) as [|L']; [discriminate|].
    match goal with
    | |- context [block_loop ?a ?b ?c ?d ?e ?f ?g ?h ?i ?j ?k ?l] =>
        pose proof (block_loop_not_sample_width a b c d e f g h i j k l) as Hloop;
        destruct (block_loop a b c d e f g h i j k l) as [st [tail|e']]
    end; cbn [snd] in *; [discriminate|].
    intros E. apply Hloop. now injection E as ->.
Qed.

Lemma C7_sample_width_gate_witness :
  overlap_add_convolve_wav wav8 ones3 2 true (Some "task"%string)
  = (fresh, Raise RuntimeError_sample_width)
  /\ snd (overlap_add_convolve_wav five_frames ones3 2 true (Some "task"%string))
     <> Raise RuntimeError_sample_width.
Proof.
  split.
  - apply (proj1 (C7_sample_width_gate wav8 ones3 2 true (Some "task"%string))).
    vm_compute. discriminate.
  - apply (proj2 (C7_sample_width_gate five_frames ones3 2 true (Some "task"%string))).
    reflexivity.
Defined.

(** ** Progress events *)

Lemma block_count_step (bs len : nat) :
  1 <= bs -> 1 <= len -> block_count bs len = S (block_count bs (len - bs)).
Proof.
  intros Hbs Hlen. unfold block_count.
  replace (len + bs - 1) with ((len - 1) + 1 * bs) by lia.
  rewrite Nat.div_add by lia.
  destruct (le_lt_dec bs len) as [Hge|Hlt].
  - replace (len - bs + bs - 1) with (len - 1) by lia. lia.
  - replace (len - bs + bs - 1) with (bs - 1) by lia.
    rewrite !Nat.div_small by lia. lia.
Qed.

Lemma block_count_nil (bs : nat) : block_count bs 0 = 0.
Proof.
  unfold block_count. destruct bs as [|bs]; [reflexivity|].
  apply Nat.div_small. lia.
Qed.

Lemma block_count_zero_size (len : nat) : block_count 0 len = 0.
Proof. reflexivity. Qed.

Lemma ui_queue_put e st : ui_queue (put e st) = ui_queue st ++ [e].
Proof. reflexivity. Qed.
Lemma ui_queue_writeframes fr st : ui_queue (writeframes fr st) = ui_queue st.
Proof. unfold writeframes. destruct (out_wav st); reflexivity. Qed.
Lemma ui_queue_note_read n st : ui_queue (note_read n st) = ui_queue st.
Proof. reflexivity. Qed.

Lemma block_loop_events nch fir bs N H total tid fuel :
  forall remaining overlap processed st st' tail,
    length remaining < fuel ->
    block_loop nch fir bs N H total (Some tid) fuel remaining overlap processed st
    = (st', Ok tail) ->
    ui_queue st'
    = ui_queue st
      ++ map (fun k => progress tid
                         (progress_pct total
                            (processed + Nat.min (k * bs) (length remaining))))
             (seq 1 (block_count bs (length remaining))).
Proof.
  induction fuel as [|fuel IH]; intros remaining overlap processed st st' tail Hfuel;
    [lia|].
  cbn [block_loop].
  destruct (firstn bs remaining) as [|fr0 frs] eqn:Efr.
  - intros [= <- _].
    assert (Hc : block_count bs (length remaining) = 0).
    { destruct bs as [|bs']; [apply block_count_zero_size|].
      destruct remaining; [apply block_count_nil | discriminate]. }
    rewrite Hc. simpl. now rewrite app_nil_r.
  - assert (Hm : length (fr0 :: frs) = Nat.min bs (length remaining))
      by (rewrite <- Efr; apply length_firstn).
    assert (Hbs : 1 <= bs) by (destruct bs; [discriminate | lia]).
    assert (Hlen : 1 <= length remaining) by (destruct remaining; [rewrite firstn_nil in Efr; discriminate | simpl; lia]).
    destruct (np_add _ _) as [out_block|]; [|discriminate].
    intros Hrun. apply IH in Hrun; [|rewrite length_skipn; lia].
    rewrite Hrun.
    rewrite ui_queue_put, ui_queue_writeframes, ui_queue_note_read.
    rewrite <- app_assoc. f_equal.
    rewrite (block_count_step bs (length remaining)) by assumption.
    rewrite length_skipn, length_map, Hm.
    cbn [seq map app]. f_equal.
    + do 2 f_equal. lia.
    + set (c := block_count bs (length remaining - bs)) in *.
      rewrite <- (seq_shift c 1), map_map.
      apply map_ext_in. intros k Hk. apply in_seq in Hk.
      do 2 f_equal.
      destruct (le_lt_dec (length remaining) bs) as [Hle|Hgt].
      * assert (E0 : length remaining - bs = 0) by lia.
        unfold c in Hk. rewrite E0, block_count_nil in Hk. lia.
      * cbn [Nat.mul]. lia.
Qed.

Local Open Scope Q_scope.

Lemma qmin_le_l (a b : Q) : qmin a b <= a.
Proof.
  unfold qmin. destruct (Qle_bool a b) eqn:E; [apply Qle_refl|].
  destruct (Qlt_le_dec b a) as [Hlt|Hle]; [now apply Qlt_le_weak|].
  apply Qle_bool_iff in Hle. congruence.
Qed.

Lemma qmin_le_r (a b : Q) : qmin a b <= b.
Proof.
  unfold qmin. destruct (Qle_bool a b) eqn:E; [now apply Qle_bool_iff | apply Qle_refl].
Qed.

Lemma qmin_glb (a b c : Q) : c <= a -> c <= b -> c <= qmin a b.
Proof. intros Ha Hb. unfold qmin. now destruct (Qle_bool a b). Qed.

Lemma qmin_mono_r (a b b' : Q) : b <= b' -> qmin a b <= qmin a b'.
Proof.
  intros Hb. apply qmin_glb; [apply qmin_le_l|].
  apply Qle_trans with b; [apply qmin_le_r | assumption].
Qed.

Lemma qmin_absorb (a b : Q) : b <= a -> qmin a b == b.
Proof.
  intros Hb. apply Qle_antisym; [apply qmin_le_r|].
  apply qmin_glb; [assumption | apply Qle_refl].
Qed.

Lemma inject_nat_nonneg (n : nat) : 0 <= inject_Z (Z.of_nat n).
Proof. unfold Qle, inject_Z; simpl. lia. Qed.

Lemma inject_nat_le (n m : nat) :
  (n <= m)%nat -> inject_Z (Z.of_nat n) <= inject_Z (Z.of_nat m).
Proof. intros H. rewrite <- Zle_Qle. lia. Qed.

Lemma ratio_mono (t p p' : nat) :
  (p <= p')%nat ->
  inject_Z (Z.of_nat p) / inject_Z (Z.of_nat t) * 100
  <= inject_Z (Z.of_nat p') / inject_Z (Z.of_nat t) * 100.
Proof.
  intros Hp. apply Qmult_le_compat_r; [|discriminate].
  unfold Qdiv. apply Qmult_le_compat_r; [now apply inject_nat_le|].
  apply Qinv_le_0_compat, inject_nat_nonneg.
Qed.

Lemma ratio_nonneg (t p : nat) :
  0 <= inject_Z (Z.of_nat p) / inject_Z (Z.of_nat t) * 100.
Proof.
  apply Qmult_le_0_compat; [|discriminate].
  unfold Qdiv. apply Qmult_le_0_compat; [apply inject_nat_nonneg|].
  apply Qinv_le_0_compat, inject_nat_nonneg.
Qed.

Lemma ratio_le_100 (t p : nat) :
  (p <= t)%nat -> inject_Z (Z.of_nat p) / inject_Z (Z.of_nat t) * 100 <= 100.
Proof.
  intros Hp. destruct t as [|t'].
  - assert (p = 0%nat) by lia. subst p. discriminate.
  - apply Qle_trans with (1 * 100); [|discriminate].
    apply Qmult_le_compat_r; [|discriminate].
    apply Qle_shift_div_r.
    + unfold Qlt, inject_Z; simpl. lia.
    + rewrite Qmult_1_l. now apply inject_nat_le.
Qed.

Lemma progress_pct_le_100 (t p : nat) : progress_pct t p <= 100.
Proof. unfold progress_pct. apply qmin_le_l. Qed.

Lemma progress_pct_nonneg (t p : nat) : 0 <= progress_pct t p.
Proof. unfold progress_pct. apply qmin_glb; [discriminate | apply ratio_nonneg]. Qed.

Lemma progress_pct_mono (t p p' : nat) :
  (p <= p')%nat -> progress_pct t p <= progress_pct t p'.
Proof. intros Hp. unfold progress_pct. now apply qmin_mono_r, ratio_mono. Qed.

Lemma progress_pct_exact (t p : nat) :
  (p <= t)%nat ->
  progress_pct t p == inject_Z (Z.of_nat p) / inject_Z (Z.of_nat t) * 100.
Proof. intros Hp. unfold progress_pct. now apply qmin_absorb, ratio_le_100. Qed.

Lemma sorted_map_seq (g : nat -> Q) (top : Q) :
  (forall k k', (k <= k')%nat -> g k <= g k') ->
  (forall k, g k <= top) ->
  forall n a, StronglySorted Qle (map g (seq a n) ++ [top]).
Proof.
  intros Hmono Htop. induction n as [|n IH]; intros a; cbn [seq map app].
  - constructor; constructor.
  - constructor; [apply IH|].
    apply Forall_app. split.
    + apply Forall_map, Forall_forall. intros k Hk. apply in_seq in Hk.
      apply Hmono. lia.
    + constructor; [apply Htop | constructor].
Qed.

Lemma expected_progress_sorted (bs total : nat) :
  StronglySorted Qle (expected_progress bs total).
Proof.
  unfold expected_progress.
  apply (sorted_map_seq (fun k => progress_pct total (Nat.min (k * bs) total))).
  - intros k k' Hk. apply progress_pct_mono.
    apply Nat.min_le_compat_r. now apply Nat.mul_le_mono_r.
  - intros k. apply progress_pct_le_100.
Qed.

Lemma expected_progress_bounds (bs total : nat) :
  Forall (fun v => 0 <= v /\ v <= 100) (expected_progress bs total).
Proof.
  unfold expected_progress. apply Forall_app. split.
  - apply Forall_map, Forall_forall. intros k _.
    split; [apply progress_pct_nonneg | apply progress_pct_le_100].
  - constructor; [split; discriminate | constructor].
Qed.

Lemma expected_progress_last (bs total : nat) :
  last (expected_progress bs total) 0 = 100.
Proof. unfold expected_progress. apply last_last. Qed.

Lemma reports_some (tid : string) :
  tid <> ""%string -> reports true (Some tid) = Some tid.
Proof. destruct tid; [congruence | reflexivity]. Qed.

(** C8, as the code has it.  A run that is given a queue and a non-empty
    task id and completes reports, after the [k]-th block,
    [min(100, processed / total * 100)] with
    [processed = min(k * block_size, total)], and then [100.0]: percentages
    in [0, 100], each equal to [processed / total * 100], non-decreasing,
    the last one exactly 100. *)
Theorem C8_progress_percentages (wf : wave_read) (fir : list Q) (block_size : nat)
        (tid : string) (st : session) :
  tid <> ""%string ->
  overlap_add_convolve_wav wf fir block_size true (Some tid) = (st, Ok tt) ->
  ui_queue st = map (progress tid) (expected_progress block_size (getnframes wf))
  /\ Forall (fun v => 0 <= v /\ v <= 100) (map pct_of (ui_queue st))
  /\ StronglySorted Qle (map pct_of (ui_queue st))
  /\ last (map pct_of (ui_queue st)) 0 = 100
  /\ (forall p, (p <= getnframes wf)%nat ->
        progress_pct (getnframes wf) p
        == inject_Z (Z.of_nat p) / inject_Z (Z.of_nat (getnframes wf)) * 100).
Proof.
  intros Htid Hrun.
  assert (Hq : ui_queue st
               = map (progress tid) (expected_progress block_size (getnframes wf))).
  { unfold overlap_add_convolve_wav in Hrun.
    destruct (negb (getsampwidth wf =? 2)%Z); [discriminate|].
    destruct (length fir) as [|L']; [discriminate|].
    rewrite (reports_some tid Htid) in Hrun.
    match type of Hrun with
    | context [block_loop ?a ?b ?c ?d ?e ?f ?g ?h ?i ?j ?k ?l] =>
        destruct (block_loop a b c d e f g h i j k l) as [st1 [tail|e']] eqn:Eloop
    end; [|discriminate].
    apply block_loop_events in Eloop; [|unfold getnframes; lia].
    injection Hrun as <-.
    rewrite ui_queue_put.
    assert (Hw : ui_queue (if (0 <? length tail)%nat
                           then writeframes (clamp_block tail) st1 else st1)
                 = ui_queue st1)
      by (destruct (0 <? length tail)%nat; [apply ui_queue_writeframes | reflexivity]).
    rewrite Hw, Eloop. cbn [open_out fresh ui_queue app].
    unfold expected_progress, getnframes.
    rewrite map_app, map_map. reflexivity. }
  assert (Hp : map pct_of (ui_queue st) = expected_progress block_size (getnframes wf)).
  { rewrite Hq, map_map. cbn [pct_of]. apply map_id. }
  rewrite Hp.
  split; [exact Hq|].
  split; [apply expected_progress_bounds|].
  split; [apply expected_progress_sorted|].
  split; [apply expected_progress_last|].
  intros p. apply progress_pct_exact.
Qed.

Lemma C8_progress_witness :
  ui_queue (fst (overlap_add_convolve_wav five_frames ones3 2 true (Some "task"%string)))
  = map (progress "task") (expected_progress 2 5)
  /\ last (map pct_of
             (ui_queue (fst (overlap_add_convolve_wav five_frames ones3 2 true
                                                      (Some "task"%string))))) 0
     = 100.
Proof.
  pose proof (C8_progress_percentages five_frames ones3 2 "task"
                (fst (overlap_add_convolve_wav five_frames ones3 2 true (Some "task"%string))))
    as H.
  destruct H as [H1 [_ [_ [H4 _]]]].
  - discriminate.
  - vm_compute. reflexivity.
  - split; [exact H1 | exact H4].
Defined.

(** C8, refuted as stated: on five frames read two at a time the values
    reported are 40, 80, 100 and 100.  The first is not the fraction 2/5 and
    does not lie in [0, 1]; the last is 100, not 1. *)
Lemma C8_percent_counterexample :
  snd (overlap_add_convolve_wav five_frames ones3 2 true (Some "task"%string)) = Ok tt
  /\ map pct_of
         (ui_queue (fst (overlap_add_convolve_wav five_frames ones3 2 true
                                                  (Some "task"%string))))
     = [200 # 5; 400 # 5; 100; 100]
  /\ ~ (200 # 5 == inject_Z 2 / inject_Z 5)
  /\ ~ (200 # 5 <= 1)
  /\ ~ (100 == 1).
Proof.
  split; [vm_compute; reflexivity|].
  split; [vm_compute; reflexivity|].
  repeat split; unfold Qeq, Qle; simpl; lia.
Qed.

Local Close Scope Q_scope.

(** ** Frame counts where no addition is refused *)

Local Open Scope nat_scope.








(** ** Where the engine agrees with direct convolution *)



Local Open Scope Q_scope.








Local Close Scope Q_scope.









End EngineTheory.

(** * Part V: further properties of the engine *)

Section EngineExtras.

Import Engine EngineExamples MoreExamples.
Local Open Scope nat_scope.

(** ** [next_pow2] *)

(** For [x >= 1], [next_pow2 x] is a power of two, at least [x] and less
    than [2 * x]: the least power of two that is not below [x]. *)
Theorem next_pow2_least_power (x : Z) :
  (1 <= x)%Z ->
  exists k : Z,
    (0 <= k)%Z /\ next_pow2 x = (2 ^ k)%Z
    /\ (x <= next_pow2 x)%Z /\ (next_pow2 x < 2 * x)%Z.
Proof.
  intros Hx. exists (bit_length (x - 1)).
  pose proof (bit_length_nonneg (x - 1)) as Hb.
  split; [exact Hb|]. split; [apply Z.shiftl_1_l|].
  split; [apply next_pow2_ge|].
  unfold next_pow2. rewrite Z.shiftl_1_l. unfold bit_length.
  destruct (x - 1 =? 0)%Z eqn:E.
  - apply Z.eqb_eq in E. change (2 ^ 0)%Z with 1%Z. lia.
  - apply Z.eqb_neq in E. rewrite Z.abs_eq by lia.
    pose proof (Z.log2_spec (x - 1) ltac:(lia)) as [Hlo _].
    rewrite Z.pow_add_r by (try lia; apply Z.log2_nonneg).
    change (2 ^ 1)%Z with 2%Z. lia.
Qed.

Lemma next_pow2_least_power_witness :
  (65543 <= next_pow2 65543)%Z /\ (next_pow2 65543 < 2 * 65543)%Z.
Proof.
  destruct (next_pow2_least_power 65543 ltac:(lia)) as [k [_ [_ [H1 H2]]]].
  split; [exact H1 | exact H2].
Defined.

(** ** Runs in which no addition is refused *)




(** ** What every call leaves behind *)

Lemma block_loop_silent nch fir bs N H total fuel :
  forall remaining overlap processed st,
    ui_queue (fst (block_loop nch fir bs N H total None fuel remaining overlap processed st))
    = ui_queue st.
Proof.
  induction fuel as [|fuel IH]; intros remaining overlap processed st;
    cbn [block_loop]; [reflexivity|].
  destruct (firstn bs remaining) as [|fr0 frs]; [reflexivity|].
  destruct (np_add _ _) as [out_block|]; [|reflexivity].
  rewrite IH. now rewrite ui_queue_writeframes.
Qed.

(** Without a queue, or with a task id that is [None] or empty, no event is
    put, whatever the input and however the call ends. *)
Theorem no_reporting_no_events (wf : wave_read) (fir : list Q) (block_size : nat)
        (have_queue : bool) (task_id : option string) :
  have_queue = false \/ task_id = None \/ task_id = Some ""%string ->
  ui_queue (fst (overlap_add_convolve_wav wf fir block_size have_queue task_id)) = [].
Proof.
  intros Hoff.
  assert (Hr : reports have_queue task_id = None).
  { destruct Hoff as [-> | [-> | ->]]; [reflexivity | | ];
      destruct have_queue; reflexivity. }
  unfold overlap_add_convolve_wav. rewrite Hr.
  destruct (negb (getsampwidth wf =? 2)%Z); [reflexivity|].
  destruct (length fir) as [|L']; [reflexivity|].
  match goal with
  | |- context [block_loop ?a ?b ?c ?d ?e ?f None ?h ?i ?j ?k ?l] =>
      pose proof (block_loop_silent a b c d e f h i j k l) as Hloop;
      destruct (block_loop a b c d e f None h i j k l) as [st [tail|e']]
  end; cbn [fst] in *; [|exact Hloop].
  destruct (0 <? length tail); rewrite ?ui_queue_writeframes; exact Hloop.
Qed.

Lemma no_reporting_no_events_witness :
  ui_queue (fst (overlap_add_convolve_wav five_frames ones3 2 true (Some ""%string))) = []
  /\ ui_queue (fst (overlap_add_convolve_wav five_frames ones3 2 false
                                             (Some "task"%string))) = [].
Proof.
  split.
  - apply (no_reporting_no_events five_frames ones3 2 true (Some ""%string)).
    right; right; reflexivity.
  - apply (no_reporting_no_events five_frames ones3 2 false (Some "task"%string)).
    left; reflexivity.
Defined.






End EngineExtras.

(** * Part VI: further properties of the response model *)

Section ResponseExtras.

Import Response Examples MoreExamples.
Local Open Scope R_scope.

Lemma unit_circle (w : R) : sin w * sin w + cos w * cos w = 1.
Proof. pose proof (sin2_cos2 w) as H. unfold Rsqr in H. exact H. Qed.

(** The polynomial [(1+p) - 2*cos(w)*z + (1-p)*z^2] at [z = exp(-jw)]. *)
Lemma centre_polynomial (p w : R) :
  Cadd (Cadd (RtoC (1 + p)) (Cscale (- 2 * cos w) (Cexp_i (- w))))
       (Cscale (1 - p) (Cexp_i (- (2 * w))))
  = mkC (2 * p * sin w * sin w) (2 * p * sin w * cos w).
Proof.
  unfold Cadd, Cscale, RtoC, Cexp_i; cbn [Re Im].
  rewrite !cos_neg, !sin_neg, cos_2a, sin_2a.
  pose proof (unit_circle w) as Hu.
  set (s := sin w) in *. set (c := cos w) in *.
  f_equal.
  - replace (1 + p + -2 * c * c + (1 - p) * (c * c - s * s))
      with ((1 + p) * (1 - (s * s + c * c)) + 2 * p * s * s) by ring.
    rewrite Hu. ring.
  - ring.
Qed.

Lemma Cdiv_parallel (A B s c : R) :
  B <> 0 -> s * s + c * c = 1 ->
  Cdiv (mkC (A * s) (A * c)) (mkC (B * s) (B * c)) = mkC (A / B) 0.
Proof.
  intros HB Hu. unfold Cdiv; cbn [Re Im].
  replace (B * s * (B * s) + B * c * (B * c)) with (B * B * (s * s + c * c)) by ring.
  replace (A * s * (B * s) + A * c * (B * c)) with (A * B * (s * s + c * c)) by ring.
  rewrite Hu. f_equal; field; assumption.
Qed.

Lemma centre_angle (f0 fs : R) :
  0 < f0 -> f0 < fs / 2 -> 0 < sin (2 * PI * f0 / fs).
Proof.
  intros H0 H1. assert (Hfs : 0 < fs) by lra.
  pose proof PI_RGT_0 as Hpi.
  apply sin_gt_0.
  - apply Rdiv_lt_0_compat; [|assumption].
    apply Rmult_lt_0_compat; lra.
  - apply Rmult_lt_reg_r with fs; [assumption|].
    replace (2 * PI * f0 / fs * fs) with (2 * PI * f0) by (field; lra).
    nra.
Qed.

Lemma peaking_f0_range (band : Band) (fs : R) :
  4 <= fs -> 0 < peaking_f0 band fs /\ peaking_f0 band fs < fs / 2.
Proof.
  intros Hfs. unfold peaking_f0.
  split.
  - pose proof (Rmax_l 1 (Rmin (f band) (fs / 2 - 1))). lra.
  - apply Rmax_lub_lt; [lra|].
    pose proof (Rmin_r (f band) (fs / 2 - 1)). lra.
Qed.

Lemma peaking_Q_positive (band : Band) (fs : R) : 0 < peaking_Q band fs.
Proof.
  pose proof (peaking_f0_ge_1 band fs) as Hf0.
  pose proof tiny_positive as Ht.
  unfold peaking_Q. destruct (String.eqb (width_type band) "q").
  - pose proof (Rmax_l (1 / 100) (width band)). lra.
  - cbv zeta.
    match goal with |- context [Rlt_dec ?a ?d] => destruct (Rlt_dec a d) as [Hd|Hd] end.
    + apply Rdiv_lt_0_compat; lra.
    + lra.
Qed.

Lemma Rpower_10_pos (x : R) : 0 < Rpower 10 x.
Proof. unfold Rpower. apply exp_pos. Qed.

(** The value of the peaking biquad at its centre frequency. *)
Lemma peaking_centre_value (band : Band) (fs : R) :
  4 <= fs ->
  peaking_eq_response band [peaking_f0 band fs] fs
  = [if invert band then Cneg (RtoC (Rpower 10 (g band / 20)))
     else RtoC (Rpower 10 (g band / 20))].
Proof.
  intros Hfs.
  destruct (peaking_f0_range band fs Hfs) as [Hlo Hhi].
  pose proof (centre_angle _ _ Hlo Hhi) as Hs.
  pose proof (peaking_Q_positive band fs) as HQ.
  pose proof (Rpower_10_pos (g band / 40)) as HG.
  unfold peaking_eq_response. cbn [map]. cbv zeta.
  unfold biquad_eval. cbv zeta.
  rewrite !centre_polynomial.
  set (w := 2 * PI * peaking_f0 band fs / fs) in *.
  set (G := Rpower 10 (g band / 40)) in *.
  set (Q := peaking_Q band fs) in *.
  set (al := sin w / (2 * Q)).
  assert (Hal : 0 < al) by (unfold al; apply Rdiv_lt_0_compat; lra).
  assert (HalG : 0 < al / G) by (apply Rdiv_lt_0_compat; lra).
  rewrite (Cdiv_parallel (2 * (al * G) * sin w) (2 * (al / G) * sin w)
                         (sin w) (cos w));
    [| apply Rgt_not_eq; apply Rmult_lt_0_compat; lra | apply unit_circle].
  replace (2 * (al * G) * sin w / (2 * (al / G) * sin w)) with (G * G)
    by (field; repeat split; lra).
  replace (Rpower 10 (g band / 20)) with (G * G).
  - reflexivity.
  - unfold G. rewrite <- Rpower_plus. f_equal. field.
Qed.

(** At its own (clamped) centre frequency a parametric band's response is
    the real number [10^(g/20)], negated when the band is inverted: for
    sample rates from 4 Hz to 192 kHz, gains within the editor's range of
    -24 to 24 dB and widths from 0.1 to 10 (Q factor or octaves), where
    nothing overflows and no denominator vanishes in binary64. *)
Theorem peaking_response_at_centre (band : Band) (fs : R) :
  4 <= fs <= 192000 ->
  -24 <= g band <= 24 ->
  1 / 10 <= width band <= 10 ->
  peaking_eq_response band [peaking_f0 band fs] fs
  = [if invert band then Cneg (RtoC (Rpower 10 (g band / 20)))
     else RtoC (Rpower 10 (g band / 20))].
Proof.
  intros [Hfs _] _ _. apply peaking_centre_value. exact Hfs.
Qed.

Lemma ln_10_pos : 0 < ln 10.
Proof. rewrite <- ln_1. apply ln_increasing; lra. Qed.

Lemma Cabs_real (x : R) : 0 <= x -> Cabs (RtoC x) = x /\ Cabs (Cneg (RtoC x)) = x.
Proof.
  intros Hx. unfold Cabs, Cneg, RtoC; cbn [Re Im]. split.
  - replace (x * x + 0 * 0) with (x * x) by ring. now apply sqrt_square.
  - replace (- x * - x + - 0 * - 0) with (x * x) by ring. now apply sqrt_square.
Qed.

Lemma tiny_as_power : 1 / 10 ^ 12 = Rpower 10 (- INR 12).
Proof.
  rewrite Rpower_Ropp, Rpower_pow by lra. unfold Rdiv. ring.
Qed.

(** The magnitude in dB of a one-band parametric chain at the band's centre
    frequency is the band's gain: for sample rates from 4 Hz to 192 kHz,
    gains within the editor's range of -24 to 24 dB and widths from 0.1 to
    10 (Q factor or octaves). *)
Theorem peaking_gain_db_at_centre (band : Band) (fs : R) :
  type band = "parametric"%string ->
  4 <= fs <= 192000 ->
  -24 <= g band <= 24 ->
  1 / 10 <= width band <= 10 ->
  magnitude_db (compute_total_response [band] [peaking_f0 band fs] fs) = [g band].
Proof.
  intros Ht [Hfs _] [Hg _] _.
  rewrite compute_total_response_single.
  unfold band_response. rewrite Ht. cbn [String.eqb Ascii.eqb Bool.eqb].
  change (("parametric" =? "parametric")%string) with true. cbv iota.
  rewrite (peaking_centre_value band fs Hfs).
  pose proof (Rpower_10_pos (g band / 20)) as HG.
  destruct (Cabs_real (Rpower 10 (g band / 20)) (Rlt_le _ _ HG)) as [Ha Hb].
  assert (Habs : Cabs (if invert band then Cneg (RtoC (Rpower 10 (g band / 20)))
                       else RtoC (Rpower 10 (g band / 20)))
                 = Rpower 10 (g band / 20))
    by (destruct (invert band); assumption).
  unfold magnitude_db. cbn [map]. rewrite Habs.
  rewrite Rmax_left.
  - unfold Rpower. rewrite ln_exp.
    pose proof ln_10_pos. f_equal. field. lra.
  - rewrite tiny_as_power. apply Rle_Rpower; [lra|]. simpl. lra.
Qed.

Lemma peaking_gain_db_witness :
  magnitude_db (compute_total_response [band_A] [peaking_f0 band_A 44100] 44100) = [-3].
Proof.
  apply (peaking_gain_db_at_centre band_A 44100).
  - reflexivity.
  - lra.
  - simpl. lra.
  - simpl. lra.
Defined.













Lemma Cmul_comm (a b : C) : Cmul a b = Cmul b a.
Proof. unfold Cmul. f_equal; ring. Qed.

Lemma Cmul_assoc (a b c : C) : Cmul (Cmul a b) c = Cmul a (Cmul b c).
Proof. unfold Cmul; cbn [Re Im]. f_equal; ring. Qed.

Lemma Cmul_neg_l (a b : C) : Cmul (Cneg a) b = Cneg (Cmul a b).
Proof. unfold Cmul, Cneg; cbn [Re Im]. f_equal; ring. Qed.

Lemma map2_Cmul_comm (x y : list C) : map2 Cmul x y = map2 Cmul y x.
Proof.
  revert y; induction x as [|a t IH]; intros [|b u]; simpl; try reflexivity.
  now rewrite Cmul_comm, IH.
Qed.

Lemma map2_Cmul_assoc (x y z : list C) :
  map2 Cmul (map2 Cmul x y) z = map2 Cmul x (map2 Cmul y z).
Proof.
  revert y z; induction x as [|a t IH]; intros [|b u] [|c v]; simpl; try reflexivity.
  now rewrite Cmul_assoc, IH.
Qed.

Lemma map2_Cmul_neg_l (x y : list C) :
  map2 Cmul (map Cneg x) y = map Cneg (map2 Cmul x y).
Proof.
  revert y; induction x as [|a t IH]; intros [|b u]; simpl; try reflexivity.
  now rewrite Cmul_neg_l, IH.
Qed.

Lemma fold_response_from (bands : list Band) (freqs : list R) (fs : R) (acc : list C) :
  length acc = length freqs ->
  fold_left (fun H_total b => map2 Cmul H_total (band_response b freqs fs)) bands acc
  = map2 Cmul acc (compute_total_response bands freqs fs).
Proof.
  unfold compute_total_response.
  revert acc; induction bands as [|b t IH]; intros acc Hacc; cbn [fold_left].
  - rewrite map2_Cmul_comm. symmetry. now apply map2_Cmul_ones.
  - rewrite IH by (rewrite map2_length, band_response_length, Hacc; apply Nat.min_id).
    rewrite (IH (map2 Cmul (ones_like freqs) (band_response b freqs fs)))
      by (rewrite map2_length, band_response_length; unfold ones_like;
          rewrite length_map; apply Nat.min_id).
    rewrite map2_Cmul_ones by apply band_response_length.
    apply map2_Cmul_assoc.
Qed.

(** Folding over a concatenation. *)
Lemma total_response_app (bs1 bs2 : list Band) (freqs : list R) (fs : R) :
  compute_total_response (bs1 ++ bs2) freqs fs
  = map2 Cmul (compute_total_response bs1 freqs fs)
              (compute_total_response bs2 freqs fs).
Proof.
  unfold compute_total_response at 1. rewrite fold_left_app.
  apply fold_response_from.
  apply (compute_total_response_length bs1 freqs fs).
Qed.

(** The composite response of a concatenated chain is the pointwise product
    of the composite responses of its parts. *)
Theorem compute_total_response_app (bs1 bs2 : list Band) (freqs : list R) (fs : R) :
  compute_total_response (bs1 ++ bs2) freqs fs
  = map2 Cmul (compute_total_response bs1 freqs fs)
              (compute_total_response bs2 freqs fs).
Proof. exact (total_response_app bs1 bs2 freqs fs). Qed.

Lemma compute_total_response_cons (b : Band) (bs : list Band) (freqs : list R) (fs : R) :
  compute_total_response (b :: bs) freqs fs
  = map2 Cmul (band_response b freqs fs) (compute_total_response bs freqs fs).
Proof.
  change (b :: bs) with ([b] ++ bs).
  now rewrite total_response_app, compute_total_response_single.
Qed.

(** The composite response does not depend on the order of the bands. *)
Theorem compute_total_response_permutation (bs bs' : list Band) (freqs : list R) (fs : R) :
  Permutation bs bs' ->
  compute_total_response bs freqs fs = compute_total_response bs' freqs fs.
Proof.
  induction 1 as [| b l l' _ IH | a b l | l l' l'' _ IH1 _ IH2].
  - reflexivity.
  - now rewrite !compute_total_response_cons, IH.
  - rewrite !compute_total_response_cons.
    rewrite <- !map2_Cmul_assoc. f_equal. apply map2_Cmul_comm.
  - now rewrite IH1.
Qed.

(** Flipping [invert] on a parametric band negates the composite response of
    any chain that contains the band. *)
Theorem invert_parametric_in_chain (bs1 bs2 : list Band) (b : Band)
        (freqs : list R) (fs : R) :
  type b = "parametric"%string ->
  compute_total_response (bs1 ++ with_invert b true :: bs2) freqs fs
  = map Cneg (compute_total_response (bs1 ++ with_invert b false :: bs2) freqs fs).
Proof.
  intros Ht.
  rewrite !total_response_app, !compute_total_response_cons.
  rewrite <- !compute_total_response_single.
  rewrite (parametric_invert_negates b freqs fs Ht).
  rewrite map2_Cmul_neg_l.
  rewrite (map2_Cmul_comm (compute_total_response bs1 freqs fs)).
  rewrite map2_Cmul_neg_l. f_equal. apply map2_Cmul_comm.
Qed.

(** A band whose type is none of the three known ones leaves the composite
    response unchanged. *)
Theorem unknown_type_is_identity (bs1 bs2 : list Band) (b : Band)
        (freqs : list R) (fs : R) :
  type b <> "parametric"%string -> type b <> "lowpass"%string ->
  type b <> "highpass"%string ->
  compute_total_response (bs1 ++ b :: bs2) freqs fs
  = compute_total_response (bs1 ++ bs2) freqs fs.
Proof.
  intros H1 H2 H3. apply String.eqb_neq in H1, H2, H3.
  rewrite !total_response_app, compute_total_response_cons.
  unfold band_response. rewrite H1, H2, H3.
  now rewrite map2_Cmul_ones by apply compute_total_response_length.
Qed.

Lemma filter_idem {A : Type} (p : A -> bool) (l : list A) :
  filter p (filter p l) = filter p l.
Proof.
  induction l as [|a t IH]; [reflexivity|]. simpl.
  destruct (p a) eqn:E; simpl; [rewrite E; now f_equal | exact IH].
Qed.

Lemma existsb_filter_same {A : Type} (p : A -> bool) (l : list A) :
  existsb p (filter p l) = existsb p l.
Proof.
  induction l as [|a t IH]; [reflexivity|]. simpl.
  destruct (p a) eqn:E; simpl; [now rewrite E | exact IH].
Qed.

Lemma existsb_filter_false {A : Type} (p q : A -> bool) (l : list A) :
  existsb p l = false -> existsb p (filter q l) = false.
Proof.
  induction l as [|a t IH]; [reflexivity|]. simpl. intros E.
  apply orb_false_iff in E as [Ea Et].
  destruct (q a); simpl; [rewrite Ea|]; now apply IH.
Qed.

(** The effective bands of the effective bands are the effective bands. *)
Theorem effective_bands_idempotent (bands : list Band) :
  effective_bands (effective_bands bands) = effective_bands bands.
Proof.
  unfold effective_bands at 2 3.
  destruct (existsb solo bands) eqn:E; rewrite map_copy_id; unfold effective_bands.
  - now rewrite existsb_filter_same, E, map_copy_id, filter_idem.
  - now rewrite (existsb_filter_false _ _ _ E), map_copy_id, filter_idem.
Qed.

Lemma peaking_response_at_centre_witness :
  peaking_eq_response band_B [peaking_f0 band_B 44100] 44100
  = [RtoC (Rpower 10 (2 / 20))].
Proof.
  apply (peaking_response_at_centre band_B 44100); simpl; lra.
Defined.


Lemma compute_total_response_permutation_witness :
  compute_total_response [band_A; band_B; band_C] [20; 1000] 44100
  = compute_total_response [band_B; band_A; band_C] [20; 1000] 44100.
Proof.
  apply (compute_total_response_permutation [band_A; band_B; band_C]
                                            [band_B; band_A; band_C]).
  apply perm_swap.
Defined.

Lemma invert_parametric_in_chain_witness :
  compute_total_response ([band_C] ++ with_invert band_A true :: [band_B]) [20; 1000] 44100
  = map Cneg
        (compute_total_response ([band_C] ++ with_invert band_A false :: [band_B])
                                [20; 1000] 44100).
Proof.
  apply (invert_parametric_in_chain [band_C] [band_B] band_A). reflexivity.
Defined.

Lemma unknown_type_is_identity_witness :
  compute_total_response ([band_A] ++ bell_band :: [band_B]) [20; 1000] 44100
  = compute_total_response ([band_A] ++ [band_B]) [20; 1000] 44100.
Proof.
  apply (unknown_type_is_identity [band_A] [band_B] bell_band); discriminate.
Defined.

(** ** The FIR designer *)

Lemma nth_map2_Rmult (a b : list R) (k : nat) :
  (k < length a)%nat -> (k < length b)%nat ->
  nth k (map2 Rmult a b) 0 = nth k a 0 * nth k b 0.
Proof.
  revert a b; induction k as [|k IH]; intros [|x a] [|y b] Ha Hb;
    simpl in *; try lia; [reflexivity|].
  apply IH; lia.
Qed.

Lemma hanning_ends (M : nat) :
  (2 <= M)%nat -> nth 0 (hanning M) 0 = 0 /\ nth (M - 1) (hanning M) 0 = 0.
Proof.
  intros HM. destruct M as [|[|M]]; try lia.
  unfold hanning.
  set (w := fun n : nat => 1 / 2 - 1 / 2 * cos (2 * PI * INR n / INR (S (S M) - 1))).
  assert (HM1 : INR (S (S M) - 1) <> 0) by (apply not_0_INR; lia).
  split.
  - rewrite (nth_indep _ 0 (w 0%nat)) by (rewrite length_map, length_seq; lia).
    rewrite map_nth, seq_nth by lia. unfold w. cbn [Nat.add INR].
    replace (2 * PI * 0 / INR (S (S M) - 1)) with 0 by (field; assumption).
    rewrite cos_0. lra.
  - rewrite (nth_indep _ 0 (w 0%nat)) by (rewrite length_map, length_seq; lia).
    rewrite map_nth, seq_nth by lia. unfold w. cbn [Nat.add].
    replace (2 * PI * INR (S (S M) - 1) / INR (S (S M) - 1)) with (2 * PI)
      by (field; assumption).
    rewrite cos_2PI. lra.
Qed.

Lemma fir_windowed_ends (bands : list Band) (fs : R) (n_taps : nat) :
  (1 <= n_taps)%nat ->
  nth 0 (fir_windowed bands fs n_taps) 0 = 0
  /\ nth (even_taps n_taps - 1) (fir_windowed bands fs n_taps) 0 = 0.
Proof.
  intros Hn.
  pose proof (fir_impulse_length bands fs n_taps Hn) as Hlen.
  destruct (even_taps_double n_taps Hn) as [k [Hk Ek]].
  unfold fir_windowed. rewrite Hlen.
  destruct (hanning_ends (even_taps n_taps) ltac:(lia)) as [H0 H1].
  split; rewrite nth_map2_Rmult by (rewrite ?hanning_length, ?Hlen; lia).
  - rewrite H0. ring.
  - rewrite H1. ring.
Qed.

Lemma nth_map_div (s : R) (h : list R) (k : nat) :
  nth k (map (fun x => x / s) h) 0 = nth k h 0 / s.
Proof.
  replace 0 with (0 / s) at 1 by (unfold Rdiv; ring).
  apply (map_nth (fun x => x / s)).
Qed.

(** Every filter designed with at least one requested tap has a first and a
    last coefficient equal to 0, because the window vanishes at both ends:
    for sample rates from 4 Hz to 192 kHz and bands with a frequency from
    1 Hz to [fs/2 - 1], a gain from -24 to 24 dB and a width from 0.1 to 10,
    where every response value is a finite number in binary64. *)
Theorem design_edge_taps_zero (bands : list Band) (fs : R) (n_taps : nat) :
  (1 <= n_taps)%nat ->
  4 <= fs <= 192000 ->
  Forall (fun b => 1 <= f b <= fs / 2 - 1
                   /\ -24 <= g b <= 24
                   /\ 1 / 10 <= width b <= 10) bands ->
  nth 0 (design_linear_phase_fir bands fs n_taps) 0 = 0
  /\ nth (even_taps n_taps - 1) (design_linear_phase_fir bands fs n_taps) 0 = 0.
Proof.
  intros Hn _ _.
  pose proof (fir_windowed_length bands fs n_taps Hn) as Hlen.
  destruct (fir_windowed_ends bands fs n_taps Hn) as [H0 H1].
  unfold design_linear_phase_fir.
  set (h := fir_windowed bands fs n_taps) in *.
  destruct (Rlt_dec (1 / 10 ^ 12) (Rabs (Rsum h))) as [Hs|Hs].
  - rewrite firstn_all2 by (rewrite length_map; lia).
    rewrite !nth_map_div, H0, H1. unfold Rdiv. split; ring.
  - rewrite firstn_all2 by lia. split; assumption.
Qed.

Lemma design_edge_taps_zero_witness :
  nth 0 (design_linear_phase_fir [band_A; band_B] 44100 2048) 0 = 0
  /\ nth (even_taps 2048 - 1) (design_linear_phase_fir [band_A; band_B] 44100 2048) 0 = 0.
Proof.
  apply (design_edge_taps_zero [band_A; band_B] 44100 2048).
  - apply Nat.leb_le. vm_compute. reflexivity.
  - lra.
  - repeat constructor; simpl; lra.
Defined.

Lemma Rsum_app (l l' : list R) : Rsum (l ++ l') = Rsum l + Rsum l'.
Proof.
  induction l as [|a t IH]; simpl; [ring|]. rewrite IH. ring.
Qed.

(** [2*sin(t/2) * sum_{k<M} cos(k*t) = sin((M - 1/2)*t) + sin(t/2)] *)
Lemma cos_sum_telescope (t : R) (M : nat) :
  2 * sin (t / 2) * Rsum (map (fun k => cos (INR k * t)) (seq 0 M))
  = sin (INR M * t - t / 2) + sin (t / 2).
Proof.
  induction M as [|M IH].
  - simpl. replace (0 * t - t / 2) with (- (t / 2)) by ring.
    rewrite sin_neg. ring.
  - rewrite seq_S, map_app, Rsum_app. cbn [Nat.add map Rsum fold_right].
    rewrite Rmult_plus_distr_l, IH, S_INR.
    replace ((INR M + 1) * t - t / 2) with (INR M * t + t / 2) by field.
    rewrite sin_plus, sin_minus. ring.
Qed.

Lemma roots_of_unity_cos_sum (n M : nat) :
  (1 <= n)%nat -> (n < M)%nat ->
  Rsum (map (fun k => cos (2 * PI * INR k * INR n / INR M)) (seq 0 M)) = 0.
Proof.
  intros Hn HM.
  assert (HMpos : 0 < INR M) by (apply lt_0_INR; lia).
  assert (Hnpos : 0 < INR n) by (apply lt_0_INR; lia).
  assert (HnM : INR n < INR M) by (apply lt_INR; assumption).
  pose proof PI_RGT_0 as Hpi.
  set (t := 2 * PI * INR n / INR M).
  assert (Hmap : map (fun k => cos (2 * PI * INR k * INR n / INR M)) (seq 0 M)
                 = map (fun k => cos (INR k * t)) (seq 0 M)).
  { apply map_ext. intros k. f_equal. unfold t. field. lra. }
  rewrite Hmap.
  pose proof (cos_sum_telescope t M) as Htel.
  assert (Hhalf : 0 < sin (t / 2)).
  { apply sin_gt_0.
    - unfold t. apply Rdiv_lt_0_compat; [|lra].
      apply Rdiv_lt_0_compat; [|assumption].
      apply Rmult_lt_0_compat; lra.
    - unfold t. apply Rmult_lt_reg_r with (INR M); [assumption|].
      replace (2 * PI * INR n / INR M / 2 * INR M) with (PI * INR n) by (field; lra).
      nra. }
  assert (Hzero : sin (INR M * t - t / 2) + sin (t / 2) = 0).
  { replace (INR M * t - t / 2) with (- (t / 2) + 2 * INR n * PI)
      by (unfold t; field; lra).
    rewrite sin_period, sin_neg. ring. }
  rewrite Hzero in Htel.
  apply Rmult_integral in Htel. destruct Htel as [Htel|Htel]; [lra | exact Htel].
Qed.

Lemma Re_Csum (l : list C) : Re (Csum l) = Rsum (map Re l).
Proof.
  induction l as [|a t IH]; simpl; [reflexivity|]. now rewrite IH.
Qed.

Lemma twiddle_sum_of_units (X : list C) (a n M0 : nat) :
  Forall (fun x => Re x = 1 /\ Im x = 0) X ->
  map Re (map (fun kX : nat * C =>
                 Cmul (snd kX) (Cexp_i (2 * PI * INR (fst kX) * INR n / INR M0)))
              (combine (seq a (length X)) X))
  = map (fun k => cos (2 * PI * INR k * INR n / INR M0)) (seq a (length X)).
Proof.
  revert a; induction X as [|x t IH]; intros a HX; [reflexivity|].
  inversion HX as [|? ? [Hre Him] Ht]; subst.
  cbn [length seq combine map fst snd]. rewrite IH by assumption.
  f_equal. unfold Cmul, Cexp_i; cbn [Re Im]. rewrite Hre, Him. ring.
Qed.

Lemma ifft_of_units (X : list C) (n : nat) :
  Forall (fun x => Re x = 1 /\ Im x = 0) X ->
  (1 <= n)%nat -> (n < length X)%nat ->
  nth n (map Re (ifft X)) 0 = 0.
Proof.
  intros HX Hn HM. unfold ifft. rewrite map_map.
  set (F := fun n0 : nat => Re _).
  rewrite (nth_indep _ 0 (F 0%nat)) by (rewrite length_map, length_seq; lia).
  rewrite map_nth, seq_nth by lia. cbn [Nat.add]. unfold F; clear F.
  unfold Cscale; cbn [Re]. rewrite Re_Csum.
  rewrite (twiddle_sum_of_units X 0 n (length X) HX).
  rewrite roots_of_unity_cos_sum by assumption. ring.
Qed.

Lemma Forall_firstn_of {A : Type} (P : A -> Prop) (n : nat) (l : list A) :
  Forall P l -> Forall P (firstn n l).
Proof.
  revert l; induction n as [|n IH]; intros [|a t] H; simpl; try constructor.
  - now inversion H.
  - apply IH. now inversion H.
Qed.

Lemma Forall_skipn_of {A : Type} (P : A -> Prop) (n : nat) (l : list A) :
  Forall P l -> Forall P (skipn n l).
Proof.
  revert l; induction n as [|n IH]; intros [|a t] H; simpl; try assumption.
  apply IH. now inversion H.
Qed.

Lemma identity_spectrum_units (freqs : list R) (fs : R) :
  Forall (fun x => Re x = 1 /\ Im x = 0)
         (compute_total_response [] freqs fs
          ++ map Cconj (slice_m2_0_rev (compute_total_response [] freqs fs))).
Proof.
  unfold compute_total_response, ones_like; cbn [fold_left].
  apply Forall_app. split.
  - apply Forall_map, Forall_forall. intros _ _. split; reflexivity.
  - apply Forall_map. unfold slice_m2_0_rev.
    apply Forall_rev, Forall_skipn_of, Forall_firstn_of.
    apply Forall_map, Forall_forall. intros _ _.
    unfold Cconj, C1; cbn [Re Im]. split; [reflexivity | ring].
Qed.

Lemma empty_chain_windowed_zero (fs : R) (n_taps : nat) :
  (1 <= n_taps)%nat ->
  fir_windowed [] fs n_taps = repeat 0 (even_taps n_taps).
Proof.
  intros Hn.
  pose proof (fir_windowed_length [] fs n_taps Hn) as Hlen.
  pose proof (fir_impulse_length [] fs n_taps Hn) as Hilen.
  destruct (even_taps_double n_taps Hn) as [k [Hk Ek]].
  apply (nth_ext _ _ 0 0); [now rewrite repeat_length|].
  intros i Hi. rewrite Hlen in Hi. rewrite nth_repeat.
  unfold fir_windowed.
  rewrite nth_map2_Rmult by (rewrite ?hanning_length, ?Hilen; lia).
  destruct i as [|i].
  - rewrite Hilen.
    rewrite (proj1 (hanning_ends (even_taps n_taps) ltac:(lia))). ring.
  - unfold fir_impulse at 1. cbv zeta.
    rewrite ifft_of_units; [ring | apply identity_spectrum_units | lia |].
    unfold fir_impulse in Hilen. cbv zeta in Hilen.
    rewrite length_map, ifft_length in Hilen. rewrite Hilen. lia.
Qed.

Lemma Rsum_repeat_zero (n : nat) : Rsum (repeat 0 n) = 0.
Proof. induction n as [|n IH]; simpl; [reflexivity | rewrite IH; ring]. Qed.

(** From an empty band chain the designer returns only zeros, whatever the
    sample rate and for every tap count of at least 1. *)
Theorem empty_chain_designs_zero (fs : R) (n_taps : nat) :
  (1 <= n_taps)%nat ->
  design_linear_phase_fir [] fs n_taps = repeat 0 (even_taps n_taps).
Proof.
  intros Hn.
  unfold design_linear_phase_fir.
  rewrite (empty_chain_windowed_zero fs n_taps Hn).
  rewrite Rsum_repeat_zero, Rabs_R0.
  destruct (Rlt_dec (1 / 10 ^ 12) 0) as [Hc|_].
  - pose proof tiny_positive. lra.
  - apply firstn_all2. rewrite repeat_length. lia.
Qed.

(** C5, a defect of the code: the designer aims at unity DC gain, and from
    the empty band chain (the identity response) it returns coefficients
    that sum to 0, not to 1.0 within 1e-6, for every sample rate and every
    tap count of at least 1, the default 2048 included.  The impulse
    response of the identity has its only non-zero sample at index 0, where
    [np.hanning] is 0: every windowed sample is 0, the sum before
    normalisation is 0 and the normalisation is skipped. *)
Theorem C5_empty_chain_sums_to_zero (fs : R) (n_taps : nat) :
  (1 <= n_taps)%nat ->
  length (design_linear_phase_fir [] fs n_taps) = even_taps n_taps
  /\ Forall (fun x => x = 0) (design_linear_phase_fir [] fs n_taps)
  /\ Rsum (design_linear_phase_fir [] fs n_taps) = 0
  /\ ~ (Rabs (Rsum (design_linear_phase_fir [] fs n_taps) - 1) <= 1 / 10 ^ 6).
Proof.
  intros Hn.
  assert (E : design_linear_phase_fir [] fs n_taps = repeat 0 (even_taps n_taps)).
  { unfold design_linear_phase_fir.
    rewrite (empty_chain_windowed_zero fs n_taps Hn).
    rewrite Rsum_repeat_zero, Rabs_R0.
    destruct (Rlt_dec (1 / 10 ^ 12) 0) as [Hc|_].
    - pose proof tiny_positive. lra.
    - apply firstn_all2. rewrite repeat_length. lia. }
  rewrite E, Rsum_repeat_zero, repeat_length.
  split; [reflexivity|]. split.
  - apply Forall_forall. intros x Hx. now apply repeat_spec in Hx.
  - split; [reflexivity|].
    rewrite Rabs_left by lra.
    intros Hc.
    assert (1 / 10 ^ 6 < 1); [|lra].
    apply Rmult_lt_reg_r with (10 ^ 6); [apply pow_lt; lra|].
    replace (1 / 10 ^ 6 * 10 ^ 6) with 1 by (field; apply pow_nonzero; lra).
    simpl; lra.
Qed.

Lemma C5_empty_chain_witness :
  Rsum (design_linear_phase_fir [] 44100 2048) = 0
  /\ ~ (Rabs (Rsum (design_linear_phase_fir [] 44100 2048) - 1) <= 1 / 10 ^ 6).
Proof.
  apply (C5_empty_chain_sums_to_zero 44100 2048).
  apply Nat.leb_le. vm_compute. reflexivity.
Defined.

Lemma empty_chain_designs_zero_witness :
  design_linear_phase_fir [] 44100 2048 = repeat 0 (even_taps 2048).
Proof.
  apply (empty_chain_designs_zero 44100 2048).
  apply Nat.leb_le. vm_compute. reflexivity.
Defined.

End ResponseExtras.

(** * The worker's progress loop *)

Section RunCmdTheory.

Import Worker.
Local Open Scope Q_scope.

Variable strip : string -> string.
Variable quote_join : list string -> string.
Variable returned_text : Z -> string.
Variable error_text : string -> string.
Variable line_time : string -> option Q.
Variable task_id : string.
Variable duration : Q.

Lemma progress_values_app (l l' : list ui_event) :
  progress_values (l ++ l') = progress_values l ++ progress_values l'.
Proof.
  induction l as [|e t IH]; [reflexivity|].
  destruct e; simpl; now rewrite IH.
Qed.

Lemma logged_lines_app (l l' : list ui_event) :
  logged_lines (l ++ l') = logged_lines l ++ logged_lines l'.
Proof.
  induction l as [|e t IH]; [reflexivity|].
  destruct e; simpl; now rewrite IH.
Qed.

Lemma sorted_snoc (l : list Q) (x : Q) :
  StronglySorted Qle l -> Forall (fun v => v <= x) l -> StronglySorted Qle (l ++ [x]).
Proof.
  induction 1 as [|a t Ht IH Ha]; intros Hx; simpl.
  - constructor; constructor.
  - inversion Hx; subst. constructor; [now apply IH|].
    apply Forall_app. split; [assumption | constructor; [assumption | constructor]].
Qed.

Lemma on_line_invariant (st : Q * list ui_event) (line : string) :
  loop_invariant st ->
  loop_invariant (on_line strip line_time task_id duration st line).
Proof.
  destruct st as [last events]. unfold loop_invariant; cbn [fst snd].
  intros [H0 [H100 [Hs Hall]]]. unfold on_line.
  assert (Hkeep : 0 <= last /\ last <= 100
                  /\ StronglySorted Qle (progress_values (events ++ [ev_log (strip line)]))
                  /\ Forall (fun v => 1 # 2 <= v /\ v <= last)
                            (progress_values (events ++ [ev_log (strip line)]))).
  { rewrite progress_values_app; cbn [progress_values]. rewrite app_nil_r. auto. }
  destruct (line_time (strip line)) as [t|]; [|exact Hkeep].
  destruct (Qlt_le_dec 0 duration) as [Hd|Hd]; [|exact Hkeep].
  set (pct := Engine.qmin 100 (t / duration * 100)).
  assert (Hp100 : pct <= 100) by apply qmin_le_l.
  destruct (Qle_bool (1 # 2) (pct - last) || Qeq_bool pct 100) eqn:E;
    [|exact Hkeep].
  assert (Hge : last <= pct /\ 1 # 2 <= pct).
  { apply orb_true_iff in E as [E|E].
    - apply Qle_bool_iff in E.
      assert (Hstep : last + (1 # 2) <= pct).
      { apply Qplus_le_l with (z := - last).
        setoid_replace (last + (1 # 2) + - last) with (1 # 2) by ring.
        exact E. }
      split.
      + apply Qle_trans with (last + (1 # 2)); [|exact Hstep].
        setoid_replace last with (last + 0) at 1 by ring.
        apply Qplus_le_r. discriminate.
      + apply Qle_trans with (last + (1 # 2)); [|exact Hstep].
        setoid_replace (1 # 2) with (0 + (1 # 2)) at 1 by ring.
        apply Qplus_le_l. exact H0.
    - apply Qeq_bool_iff in E. rewrite E. split; [exact H100 | discriminate]. }
  destruct Hge as [Hge Hhalf].
  cbn [fst snd]. rewrite !progress_values_app; cbn [progress_values].
  rewrite app_nil_r.
  split; [apply Qle_trans with last; assumption|].
  split; [assumption|]. split.
  - apply sorted_snoc; [assumption|].
    eapply Forall_impl; [|exact Hall]. cbn. intros v [_ Hv].
    apply Qle_trans with last; assumption.
  - apply Forall_app. split.
    + eapply Forall_impl; [|exact Hall]. cbn. intros v [Hv1 Hv2].
      split; [assumption | apply Qle_trans with last; assumption].
    + constructor; [split; [assumption | apply Qle_refl] | constructor].
Qed.

Lemma fold_invariant (lines : list string) (st : Q * list ui_event) :
  loop_invariant st ->
  loop_invariant (fold_left (on_line strip line_time task_id duration) lines st).
Proof.
  revert st; induction lines as [|l t IH]; intros st Hst; [exact Hst|].
  cbn [fold_left]. apply IH. now apply on_line_invariant.
Qed.

(** The progress values of one ffmpeg run never decrease and lie between 0.5
    and 100, whatever the process prints, however its times are parsed and
    whatever the duration is. *)
Theorem run_cmd_progress_monotone (cmd : list string) (proc : process) :
  StronglySorted Qle
    (progress_values (_run_cmd_with_progress strip quote_join returned_text error_text
                                             line_time task_id duration cmd proc))
  /\ Forall (fun v => 1 # 2 <= v /\ v <= 100)
       (progress_values (_run_cmd_with_progress strip quote_join returned_text error_text
                                                line_time task_id duration cmd proc)).
Proof.
  unfold _run_cmd_with_progress. destruct proc as [msg | lines msg | lines rc].
  - cbn. split; constructor.
  - pose proof (fold_invariant lines (0, [ev_cmd (quote_join cmd)])) as Hinv.
    destruct (fold_left _ lines _) as [last events].
    unfold loop_invariant in Hinv; cbn [fst snd progress_values] in Hinv.
    destruct Hinv as [H0 [H100 [Hs Hall]]].
    { split; [discriminate|]. split; [discriminate|]. split; constructor. }
    rewrite progress_values_app; cbn [progress_values]; rewrite app_nil_r.
    split; [assumption|].
    eapply Forall_impl; [|exact Hall]. cbn. intros v [Hv1 Hv2].
    split; [assumption | apply Qle_trans with last; assumption].
  - pose proof (fold_invariant lines (0, [ev_cmd (quote_join cmd)])) as Hinv.
    destruct (fold_left _ lines _) as [last events].
    unfold loop_invariant in Hinv; cbn [fst snd progress_values] in Hinv.
    destruct Hinv as [H0 [H100 [Hs Hall]]].
    { split; [discriminate|]. split; [discriminate|]. split; constructor. }
    assert (Hb : Forall (fun v => 1 # 2 <= v /\ v <= 100) (progress_values events)).
    { eapply Forall_impl; [|exact Hall]. cbn. intros v [Hv1 Hv2].
      split; [assumption | apply Qle_trans with last; assumption]. }
    destruct (negb (rc =? 0)%Z); rewrite progress_values_app; cbn [progress_values];
      rewrite ?app_nil_r.
    + split; assumption.
    + split.
      * apply sorted_snoc; [assumption|].
        eapply Forall_impl; [|exact Hb]. cbn. tauto.
      * apply Forall_app. split; [assumption|].
        constructor; [split; discriminate | constructor].
Qed.

Lemma fold_logged (lines : list string) (st : Q * list ui_event) :
  logged_lines (snd (fold_left (on_line strip line_time task_id duration) lines st))
  = logged_lines (snd st) ++ map strip lines.
Proof.
  revert st; induction lines as [|l t IH]; intros [last events]; cbn [fold_left map].
  - now rewrite app_nil_r.
  - rewrite IH. unfold on_line.
    assert (Hl : logged_lines (events ++ [ev_log (strip l)])
                 = logged_lines events ++ [strip l])
      by (rewrite logged_lines_app; reflexivity).
    destruct (line_time (strip l)) as [t0|];
      [destruct (Qlt_le_dec 0 duration);
       [destruct (_ || _)|]|];
      cbn [snd]; rewrite ?logged_lines_app, ?Hl; cbn [logged_lines];
      rewrite ?app_nil_r, <- ?app_assoc; reflexivity.
Qed.

Lemma fold_head (cmd : list string) (lines : list string) (st : Q * list ui_event) :
  hd_error (snd st) = Some (ev_cmd (quote_join cmd)) ->
  hd_error (snd (fold_left (on_line strip line_time task_id duration) lines st))
  = Some (ev_cmd (quote_join cmd)).
Proof.
  revert st; induction lines as [|x t IH]; intros [la ev] Hst; [exact Hst|].
  cbn [fold_left]. apply IH. unfold on_line.
  destruct ev as [|e0 ev']; [discriminate|].
  destruct (line_time (strip x));
    [destruct (Qlt_le_dec 0 duration); [destruct (_ || _)|]|]; exact Hst.
Qed.

Lemma hd_error_snoc {A : Type} (l : list A) (x a : A) :
  hd_error l = Some a -> hd_error (l ++ [x]) = Some a.
Proof. destruct l; [discriminate | exact (fun H => H)]. Qed.

(** The command text is always put first.  When [Popen] raises, one error
    event follows and nothing else.  Otherwise every line delivered by the
    process is logged, stripped and in order, and the last event is: the
    error of the exception when reading raised; [progress 100] when every
    line was read and the exit code is 0; the exit-code error when it is
    not 0. *)
Theorem run_cmd_log_and_outcome (cmd : list string) (proc : process) :
  let events := _run_cmd_with_progress strip quote_join returned_text error_text
                                       line_time task_id duration cmd proc in
  hd_error events = Some (ev_cmd (quote_join cmd))
  /\ match proc with
     | popen_raised e =>
         events = [ev_cmd (quote_join cmd); ev_error (error_text e)]
     | read_raised lines e =>
         logged_lines events = map strip lines
         /\ last events (ev_cmd EmptyString) = ev_error (error_text e)
     | ran lines rc =>
         logged_lines events = map strip lines
         /\ (rc = 0%Z -> last events (ev_cmd EmptyString) = ev_progress task_id 100)
         /\ (rc <> 0%Z ->
             last events (ev_cmd EmptyString) = ev_error (returned_text rc))
     end.
Proof.
  cbv zeta. unfold _run_cmd_with_progress.
  destruct proc as [msg | lines msg | lines rc].
  - split; reflexivity.
  - pose proof (fold_logged lines (0, [ev_cmd (quote_join cmd)])) as Hlog.
    pose proof (fold_head cmd lines (0, [ev_cmd (quote_join cmd)]) eq_refl) as Hhd.
    cbn [snd logged_lines app] in Hlog.
    destruct (fold_left _ lines _) as [last events]. cbn [snd] in *.
    split; [now apply hd_error_snoc|].
    rewrite logged_lines_app; cbn [logged_lines]. rewrite app_nil_r.
    split; [exact Hlog | apply last_last].
  - pose proof (fold_logged lines (0, [ev_cmd (quote_join cmd)])) as Hlog.
    pose proof (fold_head cmd lines (0, [ev_cmd (quote_join cmd)]) eq_refl) as Hhd.
    cbn [snd logged_lines app] in Hlog.
    destruct (fold_left _ lines _) as [last events]. cbn [snd] in *.
    destruct (rc =? 0)%Z eqn:E; cbn [negb].
    + apply Z.eqb_eq in E. split; [now apply hd_error_snoc|].
      rewrite logged_lines_app; cbn [logged_lines]. rewrite app_nil_r.
      split; [exact Hlog|].
      split; [intros _; apply last_last | congruence].
    + apply Z.eqb_neq in E. split; [now apply hd_error_snoc|].
      rewrite logged_lines_app; cbn [logged_lines]. rewrite app_nil_r.
      split; [exact Hlog|].
      split; [congruence | intros _; apply last_last].
Qed.

Lemma fold_no_duration (lines : list string) (st : Q * list ui_event) :
  duration <= 0 ->
  progress_values (snd (fold_left (on_line strip line_time task_id duration) lines st))
  = progress_values (snd st).
Proof.
  intros Hd. revert st; induction lines as [|l t IH]; intros [last events];
    cbn [fold_left]; [reflexivity|].
  rewrite IH. unfold on_line.
  destruct (line_time (strip l)) as [t0|].
  - destruct (Qlt_le_dec 0 duration) as [Hpos|_].
    + exfalso. apply (Qlt_not_le _ _ Hpos Hd).
    + cbn [snd]. rewrite progress_values_app. cbn. now rewrite app_nil_r.
  - cbn [snd]. rewrite progress_values_app. cbn. now rewrite app_nil_r.
Qed.

(** When the duration is unknown (not positive), no progress is reported
    while the process runs: the only progress event is the final 100 of a
    run whose output was read to the end and whose exit code is 0. *)
Theorem run_cmd_unknown_duration (cmd : list string) (proc : process) :
  duration <= 0 ->
  progress_values (_run_cmd_with_progress strip quote_join returned_text error_text
                                          line_time task_id duration cmd proc)
  = match proc with
    | ran _ rc => if (rc =? 0)%Z then [100] else []
    | _ => []
    end.
Proof.
  intros Hd. unfold _run_cmd_with_progress.
  destruct proc as [msg | lines msg | lines rc]; [reflexivity | |].
  - pose proof (fold_no_duration lines (0, [ev_cmd (quote_join cmd)]) Hd) as Hf.
    destruct (fold_left _ lines _) as [last events]. cbn [snd progress_values] in Hf.
    rewrite progress_values_app, Hf. reflexivity.
  - pose proof (fold_no_duration lines (0, [ev_cmd (quote_join cmd)]) Hd) as Hf.
    destruct (fold_left _ lines _) as [last events]. cbn [snd progress_values] in Hf.
    destruct (rc =? 0)%Z; cbn [negb]; rewrite progress_values_app, Hf; reflexivity.
Qed.

End RunCmdTheory.

Lemma run_cmd_log_and_outcome_witness :
  last (Worker._run_cmd_with_progress (fun s => s) (String.concat " ")
          (fun _ => "ffmpeg returned 1"%string) (fun e => e)
          (fun _ => Some 5%Q) "t1" 10%Q ["ffmpeg"%string]
          (Worker.ran ["time=5"%string] 0))
       (Worker.ev_cmd EmptyString)
  = Worker.ev_progress "t1" 100%Q.
Proof.
  apply (proj1 (proj2 (proj2
           (run_cmd_log_and_outcome (fun s => s) (String.concat " ")
              (fun _ => "ffmpeg returned 1"%string) (fun e => e)
              (fun _ => Some 5%Q) "t1" 10%Q ["ffmpeg"%string]
              (Worker.ran ["time=5"%string] 0))))).
  reflexivity.
Defined.

Lemma run_cmd_unknown_duration_witness :
  Worker.progress_values
    (Worker._run_cmd_with_progress (fun s => s) (String.concat " ")
       (fun _ => "ffmpeg returned 1"%string) (fun e => e)
       (fun _ => Some 5%Q) "t1" 0%Q ["ffmpeg"%string]
       (Worker.read_raised ["time=5"%string] "codec can't decode"%string))
  = [].
Proof.
  apply (run_cmd_unknown_duration (fun s => s) (String.concat " ")
           (fun _ => "ffmpeg returned 1"%string) (fun e => e)
           (fun _ => Some 5%Q) "t1" 0%Q ["ffmpeg"%string]
           (Worker.read_raised ["time=5"%string] "codec can't decode"%string)).
  apply Qle_refl.
Defined.

(** * The drop parser *)

Section DropTheory.

Import Drop MoreExamples.
Local Open Scope string_scope.

Lemma append_assoc (a b c : string) : (a ++ b) ++ c = a ++ (b ++ c).
Proof. induction a as [|ch a IH]; simpl; [reflexivity | now rewrite IH]. Qed.

Lemma append_nil_r (a : string) : a ++ "" = a.
Proof. induction a as [|ch a IH]; simpl; [reflexivity | now rewrite IH]. Qed.

(** Outside braces, text without braces changes nothing. *)
Lemma drop_loop_gap (gap rest : string) (parts : list string) (cur : string) :
  brace_free gap = true ->
  drop_loop (gap ++ rest) parts cur false = drop_loop rest parts cur false.
Proof.
  induction gap as [|ch gap IH]; intros Hg; [reflexivity|].
  cbn [brace_free] in Hg. apply andb_true_iff in Hg as [Hg Hrest].
  apply andb_true_iff in Hg as [Ho Hc].
  apply negb_true_iff in Ho, Hc.
  cbn [append drop_loop]. rewrite Ho, Hc.
  destruct (is_blank ch && negb false); now apply IH.
Qed.

(** Inside braces, text without braces is collected up to the closing one. *)
Lemma drop_loop_name (name rest : string) (parts : list string) (cur : string) :
  brace_free name = true ->
  drop_loop (name ++ "}" ++ rest) parts cur true
  = drop_loop rest (parts ++ [(cur ++ name)%string])%list "" false.
Proof.
  revert cur; induction name as [|ch name IH]; intros cur Hn.
  - cbn. now rewrite append_nil_r.
  - cbn [brace_free] in Hn. apply andb_true_iff in Hn as [Hn Hrest].
    apply andb_true_iff in Hn as [Ho Hc].
    apply negb_true_iff in Ho, Hc.
    cbn [append drop_loop]. rewrite Ho, Hc.
    rewrite (IH _ Hrest). do 3 f_equal.
    now rewrite append_assoc.
Qed.

Lemma drop_loop_braced (items : list (string * string)) (trail : string)
      (parts : list string) (cur : string) :
  Forall (fun it => brace_free (fst it) = true /\ brace_free (snd it) = true) items ->
  brace_free trail = true ->
  drop_loop (braced items trail) parts cur false = (parts ++ map snd items)%list.
Proof.
  intros Hitems Htrail. revert parts cur.
  induction Hitems as [|[gap name] items [Hgap Hname] _ IH]; intros parts cur.
  - cbn [braced map]. rewrite <- (append_nil_r trail), drop_loop_gap by assumption.
    cbn. now rewrite app_nil_r.
  - cbn [braced map fst snd] in *.
    rewrite drop_loop_gap by assumption.
    change ("{" ++ name ++ "}" ++ braced items trail)
      with (String "{" (name ++ "}" ++ braced items trail)).
    cbn [drop_loop]. change (is_open "{") with true. cbv iota.
    rewrite drop_loop_name by assumption.
    rewrite IH. cbn [append]. now rewrite <- app_assoc.
Qed.

(** Braced items are recovered exactly, in order, and whatever stands outside
    the braces is discarded. *)
Theorem dropped_parts_braced (items : list (string * string)) (trail : string) :
  Forall (fun it => brace_free (fst it) = true /\ brace_free (snd it) = true) items ->
  brace_free trail = true ->
  items <> [] ->
  dropped_parts (braced items trail) = map snd items.
Proof.
  intros Hitems Htrail Hne. unfold dropped_parts.
  rewrite (drop_loop_braced items trail [] "" Hitems Htrail). cbn [app].
  destruct items as [|it items']; [congruence|]. reflexivity.
Qed.

Lemma dropped_parts_braced_witness :
  dropped_parts "{C:/My Music/a b.wav} {x.mp3}" = ["C:/My Music/a b.wav"; "x.mp3"].
Proof.
  apply (dropped_parts_braced two_dropped "").
  - repeat constructor.
  - reflexivity.
  - discriminate.
Defined.

(** Data without braces is split at white space. *)
Theorem dropped_parts_plain (data : string) :
  brace_free data = true -> dropped_parts data = split data.
Proof.
  intros Hd. unfold dropped_parts.
  pose proof (drop_loop_gap data "" [] "" Hd) as Hg.
  rewrite append_nil_r in Hg. rewrite Hg. cbn [drop_loop].
  destruct data; reflexivity.
Qed.

Lemma dropped_parts_plain_witness :
  dropped_parts "/tmp/a.wav /tmp/b.mp3" = ["/tmp/a.wav"; "/tmp/b.mp3"].
Proof.
  rewrite (dropped_parts_plain "/tmp/a.wav /tmp/b.mp3" eq_refl). reflexivity.
Defined.

End DropTheory.

(** * The band editor *)

Section EditorTheory.

Import Response Editor Examples MoreExamples.
Local Open Scope nat_scope.

Lemma update_length {A : Type} (g : A -> A) (i : nat) (l : list A) :
  length (update g i l) = length l.
Proof.
  revert i; induction l as [|a t IH]; intros [|j]; simpl; auto.
Qed.

Lemma update_twice {A : Type} (g : A -> A) (i : nat) (l : list A) :
  (forall a, g (g a) = a) -> update g i (update g i l) = l.
Proof.
  intros Hg. revert i; induction l as [|a t IH]; intros [|j]; simpl;
    try reflexivity; [now rewrite Hg | now rewrite IH].
Qed.

Lemma py_index_length_only {A B : Type} (l : list A) (l' : list B) (idx : Z) :
  length l = length l' -> py_index l idx = py_index l' idx.
Proof. intros E. unfold py_index. now rewrite E. Qed.

Lemma toggle_twice (g : Band -> Band) (bands bands' : list Band) (idx : Z) :
  (forall b, g (g b) = b) ->
  toggle g bands idx = Some bands' -> toggle g bands' idx = Some bands.
Proof.
  intros Hg. unfold toggle.
  destruct (py_index bands idx) as [i|] eqn:E; [|discriminate].
  intros [= <-].
  rewrite (py_index_length_only _ bands idx) by apply update_length.
  rewrite E. now rewrite update_twice.
Qed.

(** Pressing Mute, Solo or Invert twice on the same band restores the band
    list. *)
Theorem toggles_are_involutions (bands bands' : list Band) (idx : Z) :
  (_toggle_mute bands idx = Some bands' -> _toggle_mute bands' idx = Some bands)
  /\ (_toggle_solo bands idx = Some bands' -> _toggle_solo bands' idx = Some bands)
  /\ (_toggle_invert bands idx = Some bands' -> _toggle_invert bands' idx = Some bands).
Proof.
  split; [|split]; apply toggle_twice; intros [t f0 wt w g0 m s i];
    unfold flip_muted, flip_solo, flip_invert; cbn;
    now rewrite negb_involutive.
Qed.

Lemma toggles_are_involutions_witness :
  _toggle_solo (update flip_solo 1 [band_A; band_B; band_C]) (-2)
  = Some [band_A; band_B; band_C].
Proof.
  apply (proj1 (proj2 (toggles_are_involutions [band_A; band_B; band_C]
                         (update flip_solo 1 [band_A; band_B; band_C]) (-2)))).
  reflexivity.
Defined.

Lemma no_solo_filter (bands : list Band) :
  existsb solo bands = false -> filter solo bands = [].
Proof.
  induction bands as [|a t IH]; [reflexivity|]. simpl. intros E.
  apply orb_false_iff in E as [Ea Et]. rewrite Ea. now apply IH.
Qed.

(** Soloing one band while none is soloed makes it the only effective band,
    muted or not. *)
Theorem solo_one_band (bands : list Band) (idx : Z) (i : nat) (b : Band) :
  existsb solo bands = false ->
  py_index bands idx = Some i ->
  nth_error bands i = Some b ->
  exists bands',
    _toggle_solo bands idx = Some bands'
    /\ effective_bands bands' = [flip_solo b].
Proof.
  intros Hns Hidx Hb. exists (update flip_solo i bands).
  unfold _toggle_solo, toggle. rewrite Hidx. split; [reflexivity|].
  clear Hidx idx.
  assert (Hsolo : solo (flip_solo b) = true).
  { assert (solo b = false).
    { apply nth_error_In in Hb. clear -Hns Hb.
      induction bands as [|a t IH]; [contradiction|]. simpl in Hns.
      apply orb_false_iff in Hns as [Ha Ht].
      destruct Hb as [-> | Hb]; [assumption | now apply IH]. }
    destruct b; cbn in *. now subst. }
  assert (Hf : filter solo (update flip_solo i bands) = [flip_solo b]).
  { revert i Hb Hns. induction bands as [|a t IH]; intros [|j] Hb Hns;
      try discriminate; simpl in Hns; apply orb_false_iff in Hns as [Ha Ht].
    - injection Hb as ->. cbn [update filter]. rewrite Hsolo.
      now rewrite (no_solo_filter t Ht).
    - cbn [update filter]. rewrite Ha. now apply IH. }
  unfold effective_bands.
  assert (existsb solo (update flip_solo i bands) = true) as ->.
  { apply existsb_exists. exists (flip_solo b). split; [|assumption].
    assert (In (flip_solo b) (filter solo (update flip_solo i bands)))
      by (rewrite Hf; now left).
    apply filter_In in H. tauto. }
  now rewrite Hf, map_copy_id.
Qed.

Lemma solo_one_band_witness :
  exists bands',
    _toggle_solo [band_A; band_C] 1 = Some bands'
    /\ effective_bands bands' = [flip_solo band_C].
Proof.
  apply (solo_one_band [band_A; band_C] 1 1 band_C); reflexivity.
Defined.

(** A new band joins the effective bands, unless some band is soloed: then
    the effective bands stay as they are. *)
Theorem add_band_effective (bands : list Band) :
  effective_bands (add_band bands)
  = if existsb solo bands then effective_bands bands
    else effective_bands bands ++ [default_band].
Proof.
  unfold effective_bands, add_band.
  rewrite existsb_app, !filter_app, !map_app. cbn.
  destruct (existsb solo bands); cbn; [now rewrite app_nil_r | reflexivity].
Qed.

Lemma existsb_firstn_false {A : Type} (p : A -> bool) (n : nat) (l : list A) :
  existsb p l = false -> existsb p (firstn n l) = false.
Proof.
  revert n; induction l as [|a t IH]; intros [|n]; simpl; auto.
  intros H. apply orb_false_iff in H as [-> H]. now apply IH.
Qed.

Lemma existsb_skipn_false {A : Type} (p : A -> bool) (n : nat) (l : list A) :
  existsb p l = false -> existsb p (skipn n l) = false.
Proof.
  revert n; induction l as [|a t IH]; intros [|n]; simpl; auto.
  intros H. apply orb_false_iff in H as [_ H]. now apply IH.
Qed.

(** While no band is soloed, muting a band changes the effective bands as
    removing it would. *)
Theorem mute_is_remove (bands : list Band) (idx : Z) (b : Band) :
  existsb solo bands = false ->
  (0 <= idx < Z.of_nat (length bands))%Z ->
  nth_error bands (Z.to_nat idx) = Some b ->
  muted b = false ->
  exists bands',
    _toggle_mute bands idx = Some bands'
    /\ effective_bands bands' = effective_bands (_remove_band bands idx).
Proof.
  intros Hns Hidx Hb Hm.
  exists (update flip_muted (Z.to_nat idx) bands).
  unfold _toggle_mute, toggle, py_index, _remove_band.
  assert (((0 <=? idx) && (idx <? Z.of_nat (length bands)))%Z = true) as ->
    by (apply andb_true_iff; split; [apply Z.leb_le | apply Z.ltb_lt]; lia).
  split; [reflexivity|].
  set (i := Z.to_nat idx) in *. clearbody i. clear Hidx idx.
  assert (Hsame : forall l, existsb solo (update flip_muted i l) = existsb solo l).
  { clear. intros l. revert i; induction l as [|a t IH]; intros [|j]; simpl;
      try reflexivity; now rewrite IH. }
  assert (Hrm : existsb solo (firstn i bands ++ skipn (S i) bands) = false).
  { rewrite existsb_app. apply orb_false_iff.
    split; [now apply existsb_firstn_false | now apply existsb_skipn_false]. }
  unfold effective_bands. rewrite Hsame, Hns, Hrm, !map_copy_id.
  clear Hns Hrm Hsame.
  revert i Hb. induction bands as [|a t IH]; intros [|j] Hb; try discriminate.
  - injection Hb as ->. cbn. now rewrite Hm.
  - cbn [update filter firstn skipn app]. cbn [filter].
    destruct (negb (muted a)); [f_equal|]; now apply IH.
Qed.

Lemma mute_is_remove_witness :
  exists bands',
    _toggle_mute [band_A; band_C] 0 = Some bands'
    /\ effective_bands bands' = effective_bands (_remove_band [band_A; band_C] 0).
Proof.
  apply (mute_is_remove [band_A; band_C] 0 band_A);
    [reflexivity | simpl; lia | reflexivity | reflexivity].
Defined.

End EditorTheory.

(** * The FFmpeg filter string *)

Section FilterTheory.

Import Response Editor Examples.
Local Open Scope nat_scope.

Variable int_text : R -> string.
Variable g_text : R -> string.

Lemma filter_piece_not_empty (b : Band) :
  filter_piece int_text g_text b <> ""%string.
Proof.
  unfold filter_piece.
  destruct (String.eqb (type b) "highpass"); [discriminate|].
  destruct (String.eqb (type b) "lowpass"); discriminate.
Qed.

Lemma join_comma_not_empty (p : string) (rest : list string) :
  p <> ""%string -> join_comma (p :: rest) <> ""%string.
Proof.
  intros Hp. destruct rest as [|q rest]; [exact Hp|].
  cbn [join_comma]. destruct p as [|c p]; [congruence | discriminate].
Qed.

(** The filter string is empty exactly when there is no band to render. *)
Theorem filter_empty_iff_no_bands (bands : list Band) :
  build_ffmpeg_filter int_text g_text bands = ""%string <-> bands = [].
Proof.
  split.
  - destruct bands as [|b rest]; [reflexivity|]. intros H. exfalso.
    revert H. unfold build_ffmpeg_filter. cbn [map].
    apply join_comma_not_empty, filter_piece_not_empty.
  - now intros ->.
Qed.

Lemma filter_piece_flip_invert (b : Band) :
  filter_piece int_text g_text (flip_invert b) = filter_piece int_text g_text b.
Proof. reflexivity. Qed.

Lemma map_update {A B : Type} (h : A -> B) (g : A -> A) (i : nat) (l : list A) :
  (forall a, h (g a) = h a) -> map h (update g i l) = map h l.
Proof.
  intros Hg. revert i; induction l as [|a t IH]; intros [|j]; simpl;
    try reflexivity; [now rewrite Hg | now rewrite IH].
Qed.

(** The FFmpeg filter never reflects the Invert switch: toggling it on any
    band leaves the filter string as it was. *)
Theorem filter_ignores_invert (bands bands' : list Band) (idx : Z) :
  _toggle_invert bands idx = Some bands' ->
  build_ffmpeg_filter int_text g_text bands'
  = build_ffmpeg_filter int_text g_text bands.
Proof.
  unfold _toggle_invert, toggle.
  destruct (py_index bands idx) as [i|]; [|discriminate].
  intros [= <-]. unfold build_ffmpeg_filter.
  now rewrite (map_update _ _ _ _ filter_piece_flip_invert).
Qed.

End FilterTheory.

Lemma filter_ignores_invert_witness :
  Editor.build_ffmpeg_filter (fun _ => "250"%string) (fun _ => "1"%string)
    (Editor.update Editor.flip_invert 0 [Examples.band_A])
  = Editor.build_ffmpeg_filter (fun _ => "250"%string) (fun _ => "1"%string) [Examples.band_A].
Proof.
  apply (filter_ignores_invert (fun _ => "250"%string) (fun _ => "1"%string)
           [Examples.band_A] (Editor.update Editor.flip_invert 0 [Examples.band_A]) 0).
  reflexivity.
Defined.
